(** * goauth: the generic Mongo CRUD layer and the client singleton

    A shallow embedding of [mongo/crud_dao.go] (the [crudDAO] methods and
    the [concurrentDecode] pipeline), of the [UpdateResult] record and of
    the connection singleton ([initialize], [DB], [Check]).

    Conventions.
    - A Go [error] value is an inhabitant of [error]; an [error] variable
      that may be [nil] is an [option error].
    - A Go slice result that may be [nil] is an [option (list _)].
    - [int] and [int64] values are in [Z].
    - Calls into the MongoDB driver are not part of the repository: the
      driver's operations are parameters of the functions that call them.
    - Logging calls ([zerolog]) have no influence on results and are left
      out. *)

From Stdlib Require Import ZArith Lia.
From stdpp Require Import base option list list_numbers gmap strings pretty.

(** ** Errors *)

(** What the driver's classification predicates look at. *)
Inductive driverCode : Type :=
| DuplicateKey      (* mongo.IsDuplicateKeyError reports true *)
| NoDocuments       (* mongo.ErrNoDocuments *)
| OtherFailure.     (* network, protocol, decode, ... *)

Inductive error : Type :=
| errorsNew (msg : string)                        (* errors.New(msg) *)
| driverError (code : driverCode) (msg : string). (* an error of the driver *)

(** [err.Error()]. *)
Definition Error (e : error) : string :=
  match e with
  | errorsNew msg => msg
  | driverError _ msg => msg
  end.

(** [mongo.IsDuplicateKeyError(err)]. *)
Definition IsDuplicateKeyError (e : error) : bool :=
  match e with
  | driverError DuplicateKey _ => true
  | _ => false
  end.

(** [errors.Is(err, mongo.ErrNoDocuments)]. *)
Definition IsNoDocuments (e : error) : bool :=
  match e with
  | driverError NoDocuments _ => true
  | _ => false
  end.

(** ** The concurrent decode pipeline ([concurrentDecode]) *)

Module Pipeline.
Section Pipeline.

Context {T Raw : Type}.

(** The zero value of [T]: what reading an absent key of a Go map gives. *)
Variable zeroT : T.

(** [cur.Decode(r)] on a copy of the cursor whose current record is the
    argument: the decoded document, or the decode error. *)
Variable Decode : Raw → T + error.

(** A goroutine started by the loop, at one of its two points where it
    touches shared memory.
    - [GDecode i r]: started with the snapshot [r] and the index [i], it has
      not yet decoded.  Its step decodes; on success it takes the mutex and
      writes [indexedRes[i]]; on failure it reads the shared [err].
    - [GSetErr e]: it has read [err == nil] and is about to execute
      [err = decodeError]. *)
Inductive goroutine : Type :=
| GDecode (i : Z) (r : Raw)
| GSetErr (decodeError : error).

(** Where the calling goroutine stands: in the [for cur.Next(ctx)] loop, at
    [wg.Wait()], or returned with its two results. *)
Inductive mainpc : Type :=
| AtLoop
| AtWait
| Returned (res : option (list T) * option error).

Record pstate : Type := mkP {
  pc : mainpc;
  cur : list Raw;            (* records [cur.Next] has still to deliver *)
  idx : Z;                   (* the variable [i] *)
  running : list goroutine;  (* goroutines counted by [wg], not yet done *)
  err : option error;        (* the shared variable [err] *)
  indexedRes : gmap Z T      (* the map [indexedRes] *)
}.

(** [i := -1; indexedRes := make(map[int]T)]. *)
Definition init (records : list Raw) : pstate :=
  mkP AtLoop records (-1) [] None ∅.

(** Lines 393-399: [res[j] = indexedRes[j]] for [0 <= j < len(indexedRes)]. *)
Definition materialize (m : gmap Z T) : list T :=
  (λ j, default zeroT (m !! j)) <$> seqZ 0 (Z.of_nat (size m)).

(** Lines 389-401, executed once [wg.Wait()] has returned. *)
Definition afterWait (e : option error) (m : gmap Z T)
  : option (list T) * option error :=
  match e with
  | Some e => (None, Some e)
  | None => (Some (materialize m), None)
  end.

(** The calling goroutine can move unless it waits for goroutines. *)
Definition main_enabled (s : pstate) : bool :=
  match pc s with
  | AtLoop => true
  | AtWait => match running s with [] => true | _ => false end
  | Returned _ => false
  end.

(** One step of the calling goroutine.  In the loop: [cur.Next] delivers a
    record or ends the loop; with a record, [err] is read and either the
    loop breaks or a goroutine is started with the incremented index. *)
Definition main_step (s : pstate) : pstate :=
  match pc s with
  | AtLoop =>
      match cur s with
      | [] => mkP AtWait [] (idx s) (running s) (err s) (indexedRes s)
      | r :: rest =>
          match err s with
          | Some _ => mkP AtWait rest (idx s) (running s) (err s) (indexedRes s)
          | None =>
              mkP AtLoop rest (idx s + 1)
                  (running s ++ [GDecode (idx s + 1) r]) (err s) (indexedRes s)
          end
      end
  | AtWait =>
      match running s with
      | [] => mkP (Returned (afterWait (err s) (indexedRes s)))
                  (cur s) (idx s) [] (err s) (indexedRes s)
      | _ => s
      end
  | Returned _ => s
  end.

(** One step of the [k]-th running goroutine. *)
Definition goroutine_step (k : nat) (s : pstate) : pstate :=
  match running s !! k with
  | None => s
  | Some (GDecode i r) =>
      match Decode r with
      | inl v => mkP (pc s) (cur s) (idx s) (delete k (running s)) (err s)
                     (<[i := v]> (indexedRes s))
      | inr e =>
          match err s with
          | None => mkP (pc s) (cur s) (idx s) (<[k := GSetErr e]> (running s))
                        (err s) (indexedRes s)
          | Some _ => mkP (pc s) (cur s) (idx s) (delete k (running s))
                          (err s) (indexedRes s)
          end
      end
  | Some (GSetErr e) =>
      mkP (pc s) (cur s) (idx s) (delete k (running s)) (Some e) (indexedRes s)
  end.

(** The interleavings: any enabled thread may take the next step. *)
Inductive step : pstate → pstate → Prop :=
| step_main s : main_enabled s = true → step s (main_step s)
| step_goroutine s k : k < length (running s) → step s (goroutine_step k s).

(** A scheduler's choice [c] read at a state: it always designates an
    enabled thread, and every enabled thread is designated by some [c]. *)
Definition sched_step (c : nat) (s : pstate) : pstate :=
  let n := length (running s) in
  if main_enabled s then
    match c mod (S n) with
    | 0 => main_step s
    | S k => goroutine_step k s
    end
  else
    match n with
    | 0 => s
    | S _ => goroutine_step (c mod n) s
    end.

Definition returned (s : pstate) : bool :=
  match pc s with Returned _ => true | _ => false end.

(** Run under a schedule (a list of choices, 0 once it is used up). *)
Fixpoint run (fuel : nat) (sched : list nat) (s : pstate) : pstate :=
  match fuel with
  | 0 => s
  | S fuel' =>
      if returned s then s
      else run fuel' (tail sched) (sched_step (hd 0 sched) s)
  end.

(** [concurrentDecode] on a cursor that delivers [records], under a
    schedule: [Some] of the two results once the call has returned. *)
Definition concurrentDecode (sched : list nat) (records : list Raw)
  : option (option (list T) * option error) :=
  match pc (run (3 * length records + 2) sched (init records)) with
  | Returned res => Some res
  | _ => None
  end.

(** Decoding the records one at a time, in fetch order, stopping at the
    first failure (the sequential reference of the ordering property). *)
Fixpoint sequentialDecode (records : list Raw) : list T + error :=
  match records with
  | [] => inl []
  | r :: rest =>
      match Decode r with
      | inr e => inr e
      | inl v =>
          match sequentialDecode rest with
          | inr e => inr e
          | inl vs => inl (v :: vs)
          end
      end
  end.

(** The goroutines the loop has started on the records [l], the first
    with index [i], none of which has run yet. *)
Fixpoint spawned (i : Z) (l : list Raw) : list goroutine :=
  match l with
  | [] => []
  | r :: l' => GDecode i r :: spawned (i + 1) l'
  end.

Definition isGDecode (g : goroutine) : Prop :=
  match g with GDecode _ _ => True | GSetErr _ => False end.

(** A measure of the work left: every step of the interleaving semantics
    decreases it. *)
Definition gweight (g : goroutine) : nat :=
  match g with GDecode _ _ => 2 | GSetErr _ => 1 end.

Definition pcweight (p : mainpc) : nat :=
  match p with AtLoop => 2 | AtWait => 1 | Returned _ => 0 end.

Fixpoint work (l : list goroutine) : nat :=
  match l with
  | [] => 0
  | g :: l' => gweight g + work l'
  end.

Definition measure (s : pstate) : nat :=
  pcweight (pc s) + 3 * length (cur s) + work (running s).

(** [e] is the decode error of one of the records. *)
Definition isDecodeError (records : list Raw) (e : error) : Prop :=
  ∃ j r, records !! j = Some r ∧ Decode r = inr e.

(** An invariant of the interleaving semantics, relative to the records
    the cursor delivers: where the loop stands in the cursor, which
    goroutines are still running and on what, and what the finished ones
    have left in [indexedRes] and [err]. *)
Record Inv (records : list Raw) (s : pstate) : Prop := mkInv {
  inv_idx : (-1 ≤ idx s < Z.of_nat (length records))%Z;
  inv_cur : pc s = AtLoop → cur s = drop (Z.to_nat (idx s + 1)) records;
  inv_left : pc s ≠ AtLoop →
             is_Some (err s) ∨ (idx s + 1 = Z.of_nat (length records))%Z;
  inv_run : ∀ i r, GDecode i r ∈ running s →
            (0 ≤ i ≤ idx s)%Z ∧ records !! Z.to_nat i = Some r;
  inv_seterr : ∀ e, GSetErr e ∈ running s → isDecodeError records e;
  inv_err : ∀ e, err s = Some e → isDecodeError records e;
  inv_dom : ∀ j v, indexedRes s !! j = Some v → (0 ≤ j ≤ idx s)%Z;
  inv_done : ∀ j r, (0 ≤ j ≤ idx s)%Z → records !! Z.to_nat j = Some r →
             GDecode j r ∈ running s ∨
             match Decode r with
             | inl v => indexedRes s !! j = Some v
             | inr _ => is_Some (err s) ∨ ∃ e, GSetErr e ∈ running s
             end;
  inv_ret : ∀ res, pc s = Returned res →
            running s = [] ∧ res = afterWait (err s) (indexedRes s)
}.

End Pipeline.
End Pipeline.

(** ** The CRUD engine ([crudDAO]) *)

Module Crud.

(** The outcome of [Update]. *)
Record UpdateResult : Type := mkUpdateResult {
  NotFound : bool;
  UniqueError : bool;
  Inserted : bool
}.

(** At most one of the three flags is set. *)
Definition atMostOneFlag (u : UpdateResult) : Prop :=
  (Nat.b2n (NotFound u) + Nat.b2n (UniqueError u) + Nat.b2n (Inserted u) ≤ 1)%nat.

(** The fields of the driver's [*mongo.UpdateResult] that [UpdateOne]
    reports. *)
Record DriverUpdateResult : Type := mkDriverUpdateResult {
  MatchedCount : Z;
  ModifiedCount : Z;
  UpsertedCount : Z
}.

(** A cursor as the driver hands it out: the records [Next] delivers before
    it reports [false], what [Err] reports after that, what [Close] will
    return, and whether [Close] has been called. *)
Record Cursor {Raw : Type} : Type := mkCursor {
  batch : list Raw;
  iterErr : option error;
  closeErr : option error;
  closed : bool
}.
Arguments Cursor : clear implicits.

(** [cur.Close(ctx)]: the cursor after the call and the error returned. *)
Definition Close {Raw} (c : Cursor Raw) : Cursor Raw * option error :=
  (mkCursor Raw (batch c) (iterErr c) (closeErr c) true, closeErr c).

Section Crud.

Context {T Raw Store Filter Patch FindOptions PipelineSpec : Type}.

Variable zeroT : T.
Variable Decode : Raw → T + error.

(** The driver's collection operations.  [Store] is the state of the
    collection on the server; each operation is given the state it runs in
    and the writing ones return the state they leave. *)
Variable InsertOne : Store → T → Store * option error.
Variable UpdateOne :
  Store → Filter → Patch → bool → Store * (DriverUpdateResult + error).
Variable Find : Store → Filter → FindOptions → Cursor Raw + error.
Variable AggregateCursor : Store → PipelineSpec → Cursor Raw + error.

(** [Create]: the collection after the call, and the two results. *)
Definition Create (st : Store) (t : T) : Store * (bool * option error) :=
  let '(st', err) := InsertOne st t in
  match err with
  | Some e =>
      if IsDuplicateKeyError e then (st', (false, None))
      else (st', (false, Some e))
  | None => (st', (true, None))
  end.

(** [Update]: [opts := options.Update().SetUpsert(withUpsert)] is the last
    argument of [UpdateOne]. *)
Definition Update (st : Store) (filter : Filter) (update : Patch)
    (withUpsert : bool) : Store * (UpdateResult * option error) :=
  let '(st', r) := UpdateOne st filter update withUpsert in
  match r with
  | inr e =>
      if IsDuplicateKeyError e
      then (st', (mkUpdateResult false true false, None))
      else (st', (mkUpdateResult false false false, Some e))
  | inl ur =>
      if negb withUpsert && (MatchedCount ur =? 0)%Z
      then (st', (mkUpdateResult true false false, None))
      else (st', (mkUpdateResult false false (UpsertedCount ur =? 1)%Z, None))
  end.

(** [FindMany] under a schedule of the decode goroutines: [None] while the
    call has not returned; otherwise the two results, and the cursor as the
    call leaves it when one was obtained. *)
Definition FindMany (sched : list nat) (st : Store) (filter : Filter)
    (opts : FindOptions)
  : option ((option (list T) * option error) * option (Cursor Raw)) :=
  match Find st filter opts with
  | inr e => Some ((None, Some e), None)
  | inl cur =>
      match Pipeline.concurrentDecode zeroT Decode sched (batch cur) with
      | None => None
      | Some (_, Some e) => Some ((None, Some e), Some cur)
      | Some (res, None) =>
          match iterErr cur with
          | Some e => Some ((None, Some e), Some cur)
          | None =>
              let '(cur', cerr) := Close cur in
              match cerr with
              | Some e => Some ((None, Some e), Some cur')
              | None => Some ((res, None), Some cur')
              end
          end
      end
  end.

(** [Aggregate]: as [FindMany], on the cursor of an aggregation. *)
Definition Aggregate (sched : list nat) (st : Store) (pipeline : PipelineSpec)
  : option ((option (list T) * option error) * option (Cursor Raw)) :=
  match AggregateCursor st pipeline with
  | inr e => Some ((None, Some e), None)
  | inl cur =>
      match Pipeline.concurrentDecode zeroT Decode sched (batch cur) with
      | None => None
      | Some (_, Some e) => Some ((None, Some e), Some cur)
      | Some (res, None) =>
          match iterErr cur with
          | Some e => Some ((None, Some e), Some cur)
          | None =>
              let '(cur', cerr) := Close cur in
              match cerr with
              | Some e => Some ((None, Some e), Some cur')
              | None => Some ((res, None), Some cur')
              end
          end
      end
  end.

End Crud.

Section Reads.

Context {T Raw Store Filter CountOptions FindOneOptions : Type}.

Variable Decode : Raw → T + error.

(** [collection.CountDocuments(ctx, filter, opts...)]: the options are a
    variadic list of pointers, each of which may be [nil]. *)
Variable CountDocuments :
  Store → Filter → list (option CountOptions) → Z + error.

(** [collection.FindOne(ctx, filter, opts)]: a [SingleResult], which holds
    an error ([sr.Err()]) or a document to decode. *)
Variable collFindOne : Store → Filter → option FindOneOptions → Raw + error.

(** [collection.DeleteOne] and [collection.DeleteMany]: the collection
    they leave, and the [DeletedCount] or the error. *)
Variable DeleteOne : Store → Filter → Store * (Z + error).
Variable collDeleteMany : Store → Filter → Store * (Z + error).

Definition Exists (st : Store) (filter : Filter) (opts : option CountOptions)
  : bool * option error :=
  match CountDocuments st filter [opts] with
  | inr e =>
      if IsNoDocuments e then (false, None) else (false, Some e)
  | inl count => ((count >? 0)%Z, None)
  end.

Definition Count (st : Store) (filter : Filter) : Z :=
  match CountDocuments st filter [] with
  | inr _ => (-1)%Z
  | inl count => count
  end.

(** [FindOne]: a [*T] that may be [nil], and the error. *)
Definition FindOne (st : Store) (filter : Filter)
    (opts : option FindOneOptions) : option T * option error :=
  match collFindOne st filter opts with
  | inr e =>
      if IsNoDocuments e then (None, None) else (None, Some e)
  | inl raw =>
      match Decode raw with
      | inr e => (None, Some e)
      | inl res => (Some res, None)
      end
  end.

Definition Delete (st : Store) (filter : Filter)
  : Store * (bool * option error) :=
  let '(st', r) := DeleteOne st filter in
  match r with
  | inr e =>
      if IsNoDocuments e then (st', (false, None)) else (st', (false, Some e))
  | inl deletedCount =>
      if (deletedCount =? 0)%Z then (st', (false, None))
      else (st', (true, None))
  end.

Definition DeleteMany (st : Store) (filter : Filter)
  : Store * (Z * option error) :=
  let '(st', r) := collDeleteMany st filter in
  match r with
  | inr e => (st', (0%Z, Some e))
  | inl deletedCount => (st', (deletedCount, None))
  end.

End Reads.
End Crud.

(** ** The client singleton ([initialize], [DB], [Check]) *)

Module Client.

(** The values the [config] accessors return ([mongoEnvs]). *)
Record Config : Type := mkConfig {
  MongoDBHost : string;
  MongoDBPort : N;
  MongoDBName : string;
  MongoDBUseAtlas : bool;
  MongoDBUseCompression : bool
}.

(** What [initialize] sets on [options.Client()]. *)
Record ClientOptions : Type := mkClientOptions {
  appliedURI : string;
  compressors : list string
}.

Inductive ReadPref : Type := Primary.

(** A call into the driver, as it can be observed from outside. *)
Inductive Event : Type :=
| EvConnect (opts : ClientOptions)
| EvPing (rp : option ReadPref).

Section Client.

(** A connected [*mongo.Client] (never [nil]). *)
Context {ClientT : Type}.

(** What the driver answers at the time of a call: [mongo.Connect] gives a
    client or an error, [client.Ping] gives [nil] or an error. *)
Record Env : Type := mkEnv {
  Connect : ClientOptions → ClientT + error;
  Ping : ClientT → option ReadPref → option error
}.

(** The package-level variables, and the driver calls made so far. *)
Record World : Type := mkWorld {
  singleExecution : bool;           (* the [sync.Once] has run its function *)
  clientInstance : option ClientT;  (* [nil] is [None] *)
  trace : list Event
}.

(** The state a process starts in. *)
Definition world0 : World := mkWorld false None [].

(** A [*mongo.Database] handle: [client.Database(name)]. *)
Record Database : Type := mkDatabase {
  dbClient : ClientT;
  dbName : string
}.

Definition mongoURI (cfg : Config) : string :=
  if MongoDBUseAtlas cfg then
    "mongodb+srv://" +:+ MongoDBHost cfg +:+ "/" +:+ MongoDBName cfg +:+ "?"
      +:+ "retryWrites=true&w=majority"
  else
    "mongodb://" +:+ MongoDBHost cfg +:+ ":" +:+ pretty (MongoDBPort cfg)
      +:+ "/" +:+ MongoDBName cfg.

Definition clientOptions (cfg : Config) : ClientOptions :=
  mkClientOptions (mongoURI cfg)
    (if MongoDBUseCompression cfg then ["zstd"] else []).

(** [initialize]: [clientInstanceError] is a local variable, [nil] unless
    the function given to [singleExecution.Do] runs and fails. *)
Definition initialize (env : Env) (cfg : Config) (w : World)
  : World * option error :=
  if singleExecution w then (w, None)
  else
    let opts := clientOptions cfg in
    match Connect env opts with
    | inr e =>
        (mkWorld true (clientInstance w) (trace w ++ [EvConnect opts]), Some e)
    | inl client =>
        match Ping env client None with
        | Some e =>
            (mkWorld true (clientInstance w)
               (trace w ++ [EvConnect opts; EvPing None]), Some e)
        | None =>
            (mkWorld true (Some client)
               (trace w ++ [EvConnect opts; EvPing None]), None)
        end
    end.

Definition DB (env : Env) (cfg : Config) (w : World)
  : World * (option Database * option error) :=
  let '(w', err) := initialize env cfg w in
  match err with
  | Some e => (w', (None, Some e))
  | None =>
      match clientInstance w' with
      | None => (w', (None, Some (errorsNew "mongo client was not initialized")))
      | Some client => (w', (Some (mkDatabase client (MongoDBName cfg)), None))
      end
  end.

Definition Check (env : Env) (w : World) : World * list error :=
  match clientInstance w with
  | None => (w, [] ++ [errorsNew "the mongo client is nil"])
  | Some client =>
      let w' := mkWorld (singleExecution w) (clientInstance w)
                  (trace w ++ [EvPing (Some Primary)]) in
      match Ping env client (Some Primary) with
      | Some err =>
          (w', [] ++ [errorsNew ("the mongo check has failed: " +:+ Error err)])
      | None => (w', [])
      end
  end.

(** The error of [DB] when no client is stored. *)
Definition notInitialized : error := errorsNew "mongo client was not initialized".

(** Successive calls of [DB], each in the environment of its time. *)
Fixpoint DBs (envs : list Env) (cfg : Config) (w : World)
  : World * list (option Database * option error) :=
  match envs with
  | [] => (w, [])
  | env :: envs' =>
      let '(w1, r) := DB env cfg w in
      let '(w2, rs) := DBs envs' cfg w1 in
      (w2, r :: rs)
  end.

(** A use of the singleton by the rest of the process: a call of [DB] or
    of [Check], in the environment of its time. *)
Inductive Call : Type :=
| CallDB (env : Env)
| CallCheck (env : Env).

(** The package state a call leaves. *)
Definition call (cfg : Config) (c : Call) (w : World) : World :=
  match c with
  | CallDB env => (DB env cfg w).1
  | CallCheck env => (Check env w).1
  end.

Definition calls (cfg : Config) (cs : list Call) (w : World) : World :=
  foldl (λ w c, call cfg c w) w cs.

Definition isCallDB (c : Call) : bool :=
  match c with CallDB _ => true | CallCheck _ => false end.

(** The number of [mongo.Connect] calls in a trace. *)
Fixpoint connects (tr : list Event) : nat :=
  match tr with
  | [] => 0
  | EvConnect _ :: tr' => S (connects tr')
  | EvPing _ :: tr' => connects tr'
  end.

End Client.
End Client.

(** ** The CORS setting ([config.CorsAllowedOrigins], [corsMiddleware])

    Go strings are byte strings.  [strings.TrimSpace], [strings.Split] and
    [strings.ToLower] are embedded as they act on ASCII strings (the fast
    paths of the Go library); on other strings the library goes by Unicode
    tables, which are not modelled, so the properties are stated for ASCII
    settings. *)

Module Cors.
Import Stdlib.Strings.Ascii.

Fixpoint isASCII (s : string) : bool :=
  match s with
  | EmptyString => true
  | String c s' => (Ascii.N_of_ascii c <? 128)%N && isASCII s'
  end.

(** The [asciiSpace] table of the [strings] package: tab, line feed,
    vertical tab, form feed, carriage return, space. *)
Definition isSpace (c : Ascii.ascii) : bool :=
  match Ascii.N_of_ascii c with
  | 9%N | 10%N | 11%N | 12%N | 13%N | 32%N => true
  | _ => false
  end.

Fixpoint trimLeft (s : string) : string :=
  match s with
  | EmptyString => EmptyString
  | String c s' => if isSpace c then trimLeft s' else s
  end.

Fixpoint trimRight (s : string) : string :=
  match s with
  | EmptyString => EmptyString
  | String c s' =>
      match trimRight s' with
      | EmptyString => if isSpace c then EmptyString else String c EmptyString
      | t => String c t
      end
  end.

(** [strings.TrimSpace]. *)
Definition TrimSpace (s : string) : string := trimRight (trimLeft s).

(** [strings.Split(s, sep)] for a separator of one byte: the substrings
    between the separators, [[""]] for the empty string. *)
Fixpoint Split (s : string) (sep : Ascii.ascii) : list string :=
  match s with
  | EmptyString => [EmptyString]
  | String c s' =>
      if Ascii.eqb c sep then EmptyString :: Split s' sep
      else
        match Split s' sep with
        | h :: t => String c h :: t
        | [] => [String c EmptyString]
        end
  end.

Definition lowerByte (c : Ascii.ascii) : Ascii.ascii :=
  let n := Ascii.N_of_ascii c in
  if (65 <=? n)%N && (n <=? 90)%N then Ascii.ascii_of_N (n + 32) else c.

(** [strings.ToLower]. *)
Fixpoint ToLower (s : string) : string :=
  match s with
  | EmptyString => EmptyString
  | String c s' => String (lowerByte c) (ToLower s')
  end.

(** The string is empty or starts with a byte that is not a space. *)
Definition headNotSpace (s : string) : Prop :=
  match s with
  | EmptyString => True
  | String c _ => isSpace c = false
  end.

(** The number of bytes [c] in [s]. *)
Fixpoint countByte (c : Ascii.ascii) (s : string) : nat :=
  match s with
  | EmptyString => 0
  | String c' s' => (if Ascii.eqb c' c then 1 else 0) + countByte c s'
  end.

(** [CorsAllowedOrigins], on the value of [CORS_ALLOWED_ORIGINS]; a nil
    slice is [None]. *)
Definition CorsAllowedOrigins (allowedOrigins : string) : option (list string) :=
  if String.eqb allowedOrigins "" then None
  else
    let allowedOriginsJoined := TrimSpace allowedOrigins in
    let allowedOriginsSplit := Split allowedOriginsJoined ","%char in
    Some ((λ origin, ToLower (TrimSpace origin)) <$> allowedOriginsSplit).

(** The [cors.Config] that [corsMiddleware] builds. *)
Record CorsConfig : Type := mkCorsConfig {
  AllowOrigins : list string;
  AllowMethods : list string;
  AllowHeaders : list string;
  ExposeHeaders : list string;
  MaxAge : Z;
  AllowWildcard : bool
}.

(** [corsMiddleware]: the handler that only calls [c.Next()], or
    [cors.New] on a configuration; [maxAge] is [config.CorsMaxAge()]. *)
Inductive Middleware : Type :=
| PassThrough
| CorsNew (c : CorsConfig).

Definition corsMiddleware (allowedOriginsEnv : string) (maxAge : Z) : Middleware :=
  match CorsAllowedOrigins allowedOriginsEnv with
  | None => PassThrough
  | Some allowedOrigins =>
      CorsNew (mkCorsConfig allowedOrigins ["GET"]
                 ["Origin"; "Content-Length"; "Content-Type"; "Authorization"; "Accept"]
                 ["Content-Disposition"; "Content-Transfer-Encoding"; "Content-Description"]
                 maxAge true)
  end.

End Cors.

(** ** A reference driver

    An in-memory collection with a unique index, standing for the MongoDB
    server behind the driver.  It is used to run the engine on concrete
    inputs; the engine itself is stated over any driver. *)

Module MemDriver.

(** A document type with the two timestamp fields (Unix seconds; 0 is the
    zero value). *)
Record Account : Type := mkAccount {
  Email : string;       (* unique index *)
  Age : Z;
  CreatedAt : Z;
  UpdatedAt : Z
}.

Definition zeroAccount : Account := mkAccount "" 0 0 0.

(** A record on the wire: a well-formed document or bytes that do not
    decode. *)
Inductive RawDoc : Type :=
| WellFormed (a : Account)
| Malformed (why : string).

Definition Decode (r : RawDoc) : Account + error :=
  match r with
  | WellFormed a => inl a
  | Malformed why => inr (driverError OtherFailure why)
  end.

Definition Store : Type := list Account.
Definition Filter : Type := Account → bool.
Definition Patch : Type := Account → Account.

Definition CountDocuments (st : Store) : Z := Z.of_nat (length st).

Definition emailTaken (st : Store) (email : string) : bool :=
  existsb (λ d, String.eqb (Email d) email) st.

Definition duplicateKey : error :=
  driverError DuplicateKey "E11000 duplicate key error".

Definition InsertOne (st : Store) (t : Account) : Store * option error :=
  if emailTaken st (Email t) then (st, Some duplicateKey)
  else (st ++ [t], None).

(** The documents before the first match, the first match, those after. *)
Fixpoint splitFirst (f : Filter) (st : Store)
  : option (list Account * Account * list Account) :=
  match st with
  | [] => None
  | d :: rest =>
      if f d then Some ([], d, rest)
      else
        match splitFirst f rest with
        | Some (pre, m, post) => Some (d :: pre, m, post)
        | None => None
        end
  end.

Definition UpdateOne (st : Store) (f : Filter) (u : Patch) (upsert : bool)
  : Store * (Crud.DriverUpdateResult + error) :=
  match splitFirst f st with
  | Some (pre, d, post) =>
      if emailTaken (pre ++ post) (Email (u d)) then (st, inr duplicateKey)
      else (pre ++ u d :: post, inl (Crud.mkDriverUpdateResult 1 1 0))
  | None =>
      if upsert then
        if emailTaken st (Email (u zeroAccount)) then (st, inr duplicateKey)
        else (st ++ [u zeroAccount], inl (Crud.mkDriverUpdateResult 0 0 1))
      else (st, inl (Crud.mkDriverUpdateResult 0 0 0))
  end.

Definition Find (st : Store) (f : Filter) (opts : unit)
  : Crud.Cursor RawDoc + error :=
  inl (Crud.mkCursor RawDoc (WellFormed <$> filter (λ d, f d = true) st)
         None None false).

(** A server whose answer to any query holds a record that does not
    decode. *)
Definition undecodable : string := "cannot decode string into an integer type".

Definition corruptCursor : Crud.Cursor RawDoc :=
  Crud.mkCursor RawDoc
    [WellFormed (mkAccount "alice@example.org" 30 0 0); Malformed undecodable]
    None None false.

Definition FindCorrupt (st : Store) (f : Filter) (opts : unit)
  : Crud.Cursor RawDoc + error :=
  inl corruptCursor.

(** [CountDocuments] on the reference server; it has no use for options. *)
Definition CountMatching (st : Store) (f : Filter) (opts : list (option unit))
  : Z + error :=
  inl (Z.of_nat (length (List.filter f st))).

(** A client of the reference server, and two environments: one where the
    server is reachable and one where it refuses connections. *)
Definition reachable : @Client.Env unit :=
  @Client.mkEnv unit (λ _, inl tt) (λ _ _, None).

Definition refused : error :=
  driverError OtherFailure "server selection error: connection refused".

Definition unreachable : @Client.Env unit :=
  @Client.mkEnv unit (λ _, inr refused) (λ _ _, Some refused).

Definition cfg : Client.Config :=
  Client.mkConfig "localhost" 27017 "goauth" false false.

Definition alice : Account := mkAccount "alice@example.org" 30 0 0.
Definition bob : Account := mkAccount "bob@example.org" 41 0 0.
Definition carol : Account := mkAccount "carol@example.org" 27 0 0.

Definition byEmail (email : string) : Filter := λ d, String.eqb (Email d) email.

(** [{"$set": {"email": ..., "age": ...}}]. *)
Definition setEmailAge (email : string) (age : Z) : Patch :=
  λ d, mkAccount email age (CreatedAt d) (UpdatedAt d).

(** A server whose cursor stops on a network error after one record. *)
Definition FindInterrupted (st : Store) (f : Filter) (opts : unit)
  : Crud.Cursor RawDoc + error :=
  inl (Crud.mkCursor RawDoc [WellFormed alice] (Some refused) None false).

End MemDriver.

(** * Properties of the decode pipeline *)

Module PipelineFacts.
Import Pipeline.
Section PipelineFacts.

Context {T Raw : Type}.
Variable zeroT : T.
Variable Decode : Raw → T + error.

Local Abbreviation pstate := (@pstate T Raw).
Local Abbreviation step := (@step T Raw zeroT Decode).
Local Abbreviation main_step := (@main_step T Raw zeroT).
Local Abbreviation goroutine_step := (@goroutine_step T Raw Decode).
Local Abbreviation sched_step := (@sched_step T Raw zeroT Decode).
Local Abbreviation run := (@run T Raw zeroT Decode).
Local Abbreviation Inv := (@Inv T Raw zeroT Decode).
Local Abbreviation isDecodeError := (@isDecodeError T Raw Decode).

(** ** Termination: a measure that every step decreases *)

Lemma work_app (l1 l2 : list (@goroutine Raw)) :
  work (l1 ++ l2) = work l1 + work l2.
Proof. induction l1 as [|a l1 IH]; simpl; lia. Qed.

Lemma work_delete (l : list (@goroutine Raw)) k g :
  l !! k = Some g → work (delete k l) + gweight g = work l.
Proof.
  revert k. induction l as [|a l IH]; intros [|k] Hk; simplify_eq/=.
  - lia.
  - specialize (IH _ Hk). lia.
Qed.

Lemma work_insert (l : list (@goroutine Raw)) k g g' :
  l !! k = Some g → work (<[k := g']> l) + gweight g = work l + gweight g'.
Proof.
  revert k. induction l as [|a l IH]; intros [|k] Hk; simplify_eq/=.
  - lia.
  - specialize (IH _ Hk). lia.
Qed.

Lemma main_step_measure (s : pstate) :
  main_enabled s = true → measure (main_step s) < measure s.
Proof.
  destruct s as [p c i g e m]. unfold main_enabled, main_step, measure. simpl.
  destruct p; simpl; [| |done].
  - destruct c as [|r rest]; simpl; [lia|].
    destruct e; simpl; [lia|]. rewrite work_app. simpl. lia.
  - destruct g; [simpl; lia|done].
Qed.

Lemma goroutine_step_measure (s : pstate) k :
  k < length (running s) → measure (goroutine_step k s) < measure s.
Proof.
  intros Hk. apply lookup_lt_is_Some_2 in Hk as [g Hg].
  destruct s as [p c i gs e m]. unfold goroutine_step, measure. simpl in *.
  rewrite Hg. destruct g as [j r|e'].
  - destruct (Decode r) as [v|e'].
    + simpl. pose proof (work_delete _ _ _ Hg). simpl in *. lia.
    + destruct e; simpl.
      * pose proof (work_delete _ _ _ Hg). simpl in *. lia.
      * pose proof (work_insert _ _ _ (GSetErr e') Hg). simpl in *. lia.
  - simpl. pose proof (work_delete _ _ _ Hg). simpl in *. lia.
Qed.

Lemma step_measure s s' : step s s' → measure s' < measure s.
Proof.
  destruct 1; [by apply main_step_measure|by apply goroutine_step_measure].
Qed.

(** A scheduled step is a step of the interleaving semantics, and every
    step of the interleaving semantics is some scheduled step. *)
Lemma sched_step_sound c s : returned s = false → step s (sched_step c s).
Proof.
  intros Hr. unfold sched_step.
  destruct (main_enabled s) eqn:Hm.
  - destruct (c mod S (length (running s))) as [|k] eqn:Hc.
    + by constructor.
    + constructor. pose proof (Nat.mod_upper_bound c (S (length (running s)))). lia.
  - destruct (length (running s)) as [|n] eqn:Hn.
    + exfalso. unfold main_enabled, returned in *.
      destruct (pc s); try done. by destruct (running s).
    + constructor. rewrite Hn. apply Nat.mod_upper_bound. lia.
Qed.

Lemma sched_step_complete s s' : step s s' → ∃ c, sched_step c s = s'.
Proof.
  destruct 1 as [s Hm|s k Hk].
  - exists 0. unfold sched_step. rewrite Hm. by rewrite Nat.Div0.mod_0_l.
  - unfold sched_step. destruct (main_enabled s).
    + exists (S k). rewrite Nat.mod_small by lia. done.
    + exists k. destruct (length (running s)) eqn:Hn; [lia|].
      rewrite Nat.mod_small by lia. done.
Qed.

Lemma measure_0_returned (s : pstate) : measure s = 0 → returned s = true.
Proof.
  unfold measure, returned. destruct (pc s); simpl; [lia|lia|done].
Qed.

Lemma run_returns fuel sched s :
  measure s ≤ fuel → returned (run fuel sched s) = true.
Proof.
  revert sched s. induction fuel as [|fuel IH]; intros sched s Hm; simpl.
  - apply measure_0_returned. lia.
  - destruct (returned s) eqn:Hr; [done|].
    apply IH. pose proof (step_measure _ _ (sched_step_sound (hd 0 sched) s Hr)). lia.
Qed.

Lemma run_reachable fuel sched s : rtc step s (run fuel sched s).
Proof.
  revert sched s. induction fuel as [|fuel IH]; intros sched s; simpl; [done|].
  destruct (returned s) eqn:Hr; [done|].
  eapply rtc_l; [by apply sched_step_sound|apply IH].
Qed.

(** ** Safety: an invariant of every interleaving *)

Lemma elem_delete_other {A} (l : list A) k x y :
  x ∈ l → l !! k = Some y → x ≠ y → x ∈ delete k l.
Proof.
  revert k. induction l as [|a l IH]; intros [|k] Hx Hk Hne; simplify_eq/=.
  - apply elem_of_cons in Hx as [?|?]; [congruence|done].
  - apply elem_of_cons in Hx as [->|?]; [left|right; eauto].
Qed.

Lemma elem_insert_other {A} (l : list A) k x y z :
  x ∈ l → l !! k = Some y → x ≠ y → x ∈ <[k := z]> l.
Proof.
  revert k. induction l as [|a l IH]; intros [|k] Hx Hk Hne; simplify_eq/=.
  - apply elem_of_cons in Hx as [?|?]; [congruence|by right].
  - apply elem_of_cons in Hx as [->|?]; [left|right; eauto].
Qed.

Lemma elem_insert_inv {A} (l : list A) k x z :
  x ∈ <[k := z]> l → x = z ∨ x ∈ l.
Proof.
  revert k. induction l as [|a l IH]; intros [|k] Hx; simpl in *.
  - by right.
  - by right.
  - apply elem_of_cons in Hx as [->|?]; [by left|right; by right].
  - apply elem_of_cons in Hx as [->|Hx]; [right; left|].
    destruct (IH _ Hx); [by left|right; by right].
Qed.

Lemma Inv_init records : Inv records (init records).
Proof.
  split; simpl; try done; try lia.
  - intros i r Hin. by apply elem_of_nil in Hin.
  - intros e Hin. by apply elem_of_nil in Hin.
Qed.

Lemma Inv_main_step records s :
  Inv records s → main_enabled s = true → Inv records (main_step s).
Proof.
  intros [Hidx Hcur Hleft Hrun Hset Herr Hdom Hdone Hret] Hen.
  destruct s as [p c i g e m]. unfold main_enabled, main_step in *. simpl in *.
  destruct p as [| |res]; [| |done].
  - specialize (Hcur eq_refl). destruct c as [|r rest].
    + (* the cursor is exhausted *)
      split; simpl; try done.
      intros _. right. symmetry in Hcur. apply drop_nil_inv in Hcur. lia.
    + destruct e as [e|].
      * (* break *)
        split; simpl; try done. intros _. left. eauto.
      * (* a goroutine is started *)
        assert (Hr : records !! Z.to_nat (i + 1) = Some r).
        { pose proof (lookup_drop records (Z.to_nat (i + 1)) 0) as Hl.
          rewrite <-Hcur in Hl. simpl in Hl. by rewrite Nat.add_0_r in Hl. }
        assert (Hlt : Z.to_nat (i + 1) < length records)
          by (apply lookup_lt_is_Some_1; eauto).
        split; simpl; try done.
        -- lia.
        -- intros _. replace (Z.to_nat (i + 1 + 1)) with (S (Z.to_nat (i + 1))) by lia.
           pose proof (drop_S records r (Z.to_nat (i + 1)) Hr) as Hd.
           rewrite <-Hcur in Hd. by simplify_eq.
        -- intros j r' Hin. apply elem_of_app in Hin as [Hin|Hin].
           ++ destruct (Hrun _ _ Hin). split; [lia|done].
           ++ apply list_elem_of_singleton in Hin. simplify_eq. split; [lia|done].
        -- intros e Hin. apply elem_of_app in Hin as [Hin|Hin]; [eauto|].
           by apply list_elem_of_singleton in Hin.
        -- intros j v Hj. specialize (Hdom _ _ Hj). lia.
        -- intros j r' Hj Hr'. destruct (decide (j = i + 1)%Z) as [->|Hne].
           ++ left. simplify_eq. apply elem_of_app. right. by apply list_elem_of_singleton.
           ++ destruct (Hdone j r') as [Hin|Hd]; [lia|done| |].
              ** left. apply elem_of_app. by left.
              ** right. destruct (Decode r'); [done|].
                 destruct Hd as [?|[e' ?]]; [by left|right].
                 exists e'. apply elem_of_app. by left.
  - destruct g; [|done].
    split; simpl; try done.
    + intros _. by apply Hleft.
    + intros res' ?. by simplify_eq.
Qed.

Lemma Inv_goroutine_step records s k :
  Inv records s → k < length (running s) → Inv records (goroutine_step k s).
Proof.
  intros [Hidx Hcur Hleft Hrun Hset Herr Hdom Hdone Hret] Hk.
  apply lookup_lt_is_Some_2 in Hk as [g Hg].
  assert (Hp : ∀ res, pc s ≠ Returned res).
  { intros res Hp. destruct (Hret _ Hp) as [Hnil _]. by rewrite Hnil in Hg. }
  destruct s as [p c i gs e m]. unfold goroutine_step. simpl in *.
  rewrite Hg. destruct g as [j r|e'].
  - destruct (Hrun j r) as [Hj Hr]; [by eapply list_elem_of_lookup_2|].
    destruct (Decode r) as [v|e'] eqn:Hdec.
    + (* the document is stored under the mutex *)
      split; simpl; try done.
      * intros j' r' Hin. apply list_elem_of_delete_inv in Hin. eauto.
      * intros e' Hin. apply list_elem_of_delete_inv in Hin. eauto.
      * intros j' v' Hl. destruct (decide (j = j')) as [<-|Hne]; [done|].
        rewrite lookup_insert_ne in Hl by done. eauto.
      * intros j' r' Hj' Hr'. destruct (decide (j = j')) as [<-|Hne].
        -- right. simplify_eq. rewrite Hdec. apply lookup_insert_eq.
        -- destruct (Hdone j' r') as [Hin|Hd]; [done|done| |].
           ++ left. eapply elem_delete_other; [done|done|congruence].
           ++ right. destruct (Decode r'); [by rewrite lookup_insert_ne|].
              destruct Hd as [?|[e' Hin]]; [by left|right].
              exists e'. eapply elem_delete_other; done.
      * intros res Hres. by destruct (Hp res).
    + destruct e as [e|].
      * (* another failure was seen first *)
        split; simpl; try done.
        -- intros j' r' Hin. apply list_elem_of_delete_inv in Hin. eauto.
        -- intros e'' Hin. apply list_elem_of_delete_inv in Hin. eauto.
        -- intros j' r' Hj' Hr'. destruct (decide (j = j')) as [<-|Hne].
           ++ right. simplify_eq. rewrite Hdec. left. eauto.
           ++ destruct (Hdone j' r') as [Hin|Hd]; [done|done| |].
              ** left. eapply elem_delete_other; [done|done|congruence].
              ** right. destruct (Decode r'); [done|]. left. eauto.
        -- intros res Hres. by destruct (Hp res).
      * (* [err == nil] was read *)
        split; simpl; try done.
        -- intros j' r' Hin. apply elem_insert_inv in Hin as [?|?]; [done|eauto].
        -- intros e'' Hin. apply elem_insert_inv in Hin as [?|?]; [|eauto].
           simplify_eq. exists (Z.to_nat j), r. done.
        -- intros j' r' Hj' Hr'. destruct (decide (j = j')) as [<-|Hne].
           ++ right. simplify_eq. rewrite Hdec. right. exists e'.
              apply list_elem_of_insert. by eapply lookup_lt_Some.
           ++ destruct (Hdone j' r') as [Hin|Hd]; [done|done| |].
              ** left. eapply elem_insert_other; [done|done|congruence].
              ** right. destruct (Decode r'); [done|].
                 destruct Hd as [?|[e'' Hin]]; [by left|right].
                 exists e''. eapply elem_insert_other; done.
        -- intros res Hres. by destruct (Hp res).
  - (* [err = decodeError] *)
    split; simpl; try done.
    + intros _. left. eauto.
    + intros j' r' Hin. apply list_elem_of_delete_inv in Hin. eauto.
    + intros e'' Hin. apply list_elem_of_delete_inv in Hin. eauto.
    + intros e'' ?. simplify_eq. apply Hset. by eapply list_elem_of_lookup_2.
    + intros j' r' Hj' Hr'. destruct (Hdone j' r') as [Hin|Hd]; [done|done| |].
      * left. eapply elem_delete_other; done.
      * right. destruct (Decode r'); [done|]. left. eauto.
    + intros res Hres. by destruct (Hp res).
Qed.

Lemma Inv_step records s s' : Inv records s → step s s' → Inv records s'.
Proof.
  intros HI Hstep. revert HI.
  destruct Hstep; intros HI; [by apply Inv_main_step|by apply Inv_goroutine_step].
Qed.

Lemma Inv_reachable records s : rtc step (init records) s → Inv records s.
Proof.
  intros Hrtc.
  apply (rtc_ind_r (R := step) (λ s, Inv records s) (init records)); [ | |done].
  - apply Inv_init.
  - intros y z _ Hstep IH. by eapply Inv_step.
Qed.

(** ** What a returned call has computed *)

Local Abbreviation sequentialDecode := (@sequentialDecode T Raw Decode).
Local Abbreviation concurrentDecode := (@concurrentDecode T Raw zeroT Decode).

Lemma sequentialDecode_inl records vs :
  sequentialDecode records = inl vs →
  length vs = length records ∧
  ∀ j r, records !! j = Some r → ∃ v, vs !! j = Some v ∧ Decode r = inl v.
Proof.
  revert vs. induction records as [|r0 rest IH]; intros vs Hseq; simpl in Hseq.
  - simplify_eq. split; [done|]. intros j r Hj. by rewrite lookup_nil in Hj.
  - destruct (Decode r0) as [v0|e0] eqn:Hd; [|done].
    destruct (sequentialDecode rest) as [vs'|e'] eqn:Hs; [|done].
    simplify_eq. destruct (IH _ eq_refl) as [Hlen Hpt]. split; [simpl; lia|].
    intros [|j] r Hj; simpl in *; simplify_eq; eauto.
Qed.

Lemma sequentialDecode_total records :
  (∀ r, r ∈ records → ∃ v, Decode r = inl v) →
  ∃ vs, sequentialDecode records = inl vs.
Proof.
  induction records as [|r0 rest IH]; intros Hok; simpl; [eauto|].
  destruct (Hok r0) as [v0 ->]; [by left|].
  destruct IH as [vs ->]; [|eauto].
  intros r Hr. apply Hok. by right.
Qed.

Lemma materialize_full (m : gmap Z T) (vs : list T) :
  (∀ j v, m !! j = Some v → (0 ≤ j < Z.of_nat (length vs))%Z) →
  (∀ j v, vs !! j = Some v → m !! Z.of_nat j = Some v) →
  materialize zeroT m = vs.
Proof.
  intros Hdom Hval.
  assert (Hsize : size m = length vs).
  { rewrite <-size_dom.
    assert (Heq : dom m = list_to_set (seqZ 0 (Z.of_nat (length vs)))).
    { apply set_eq. intros j. rewrite elem_of_dom, elem_of_list_to_set, elem_of_seqZ.
      split.
      - intros [v Hv]. specialize (Hdom _ _ Hv). lia.
      - intros Hj. destruct (lookup_lt_is_Some_2 vs (Z.to_nat j)) as [v Hv]; [lia|].
        exists v. specialize (Hval _ _ Hv). by rewrite Z2Nat.id in Hval by lia. }
    rewrite Heq, size_list_to_set by apply NoDup_seqZ.
    rewrite length_seqZ. lia. }
  unfold materialize. rewrite Hsize. apply list_eq. intros j.
  rewrite list_lookup_fmap.
  destruct (vs !! j) as [v|] eqn:Hv.
  - rewrite lookup_seqZ_lt by (apply lookup_lt_Some in Hv; lia). simpl.
    by rewrite Z.add_0_l, (Hval _ _ Hv).
  - rewrite lookup_seqZ_ge; [done|]. apply lookup_ge_None in Hv. lia.
Qed.

Lemma returned_all_decoded records vs s res :
  Inv records s → pc s = Returned res →
  sequentialDecode records = inl vs →
  res = (Some vs, None).
Proof.
  intros [Hidx Hcur Hleft Hrun Hset Herr Hdom Hdone Hret] Hpc Hseq.
  destruct (sequentialDecode_inl _ _ Hseq) as [Hlen Hpt].
  destruct (Hret _ Hpc) as [Hnil ->].
  destruct (err s) as [e|] eqn:He.
  { destruct (Herr e eq_refl) as (j & r & Hj & Hd).
    destruct (Hpt _ _ Hj) as (v & _ & Hd'). congruence. }
  destruct Hleft as [[? ?]|Hfull]; [by rewrite Hpc|done|].
  simpl. f_equal. f_equal. apply materialize_full.
  - intros j v Hj. specialize (Hdom _ _ Hj). lia.
  - intros j v Hj.
    destruct (lookup_lt_is_Some_2 records j) as [r Hr];
      [apply lookup_lt_Some in Hj; lia|].
    destruct (Hpt _ _ Hr) as (v' & Hv' & Hd). simplify_eq.
    destruct (Hdone (Z.of_nat j) r) as [Hin|Hin].
    + apply lookup_lt_Some in Hr. lia.
    + by rewrite Nat2Z.id.
    + rewrite Hnil in Hin. by apply elem_of_nil in Hin.
    + by rewrite Hd in Hin.
Qed.

Lemma returned_failure records s res k r e :
  Inv records s → pc s = Returned res →
  records !! k = Some r → Decode r = inr e →
  ∃ e', res = (None, Some e') ∧ isDecodeError records e'.
Proof.
  intros [Hidx Hcur Hleft Hrun Hset Herr Hdom Hdone Hret] Hpc Hk Hd.
  destruct (Hret _ Hpc) as [Hnil ->].
  assert (Hsome : is_Some (err s)).
  { destruct (decide (Z.of_nat k ≤ idx s)%Z) as [Hle|Hgt].
    - destruct (Hdone (Z.of_nat k) r) as [Hin|Hin].
      + lia.
      + by rewrite Nat2Z.id.
      + rewrite Hnil in Hin. by apply elem_of_nil in Hin.
      + rewrite Hd in Hin. destruct Hin as [?|[e' Hin]]; [done|].
        rewrite Hnil in Hin. by apply elem_of_nil in Hin.
    - destruct Hleft as [?|Hfull]; [by rewrite Hpc|done|].
      apply lookup_lt_Some in Hk. lia. }
  destruct Hsome as [e' He']. rewrite He'. simpl. eauto.
Qed.

(** The call returns under every schedule. *)
Lemma concurrentDecode_returns sched records :
  ∃ s res, concurrentDecode sched records = Some res ∧
           pc s = Returned res ∧ rtc step (init records) s.
Proof.
  unfold Pipeline.concurrentDecode.
  set (s := run (3 * length records + 2) sched (init records)).
  assert (Hr : returned s = true).
  { apply run_returns. unfold measure. simpl. lia. }
  unfold returned in Hr. destruct (pc s) as [| |res] eqn:Hpc; try done.
  exists s, res. split_and!; [done|done|apply run_reachable].
Qed.

Lemma concurrentDecode_all_decoded sched records vs :
  sequentialDecode records = inl vs →
  concurrentDecode sched records = Some (Some vs, None).
Proof.
  intros Hseq.
  destruct (concurrentDecode_returns sched records) as (s & res & -> & Hpc & Hrtc).
  f_equal. eapply returned_all_decoded; [by apply Inv_reachable|done|done].
Qed.

(** C1. For every sequence of fetched records that all decode, the
    concurrent pipeline returns, under every schedule of its goroutines,
    the list that decoding the records one at a time in fetch order gives:
    the same elements in the same order, and no error.  This holds for
    the executable pipeline under every schedule and for every returned
    state of the interleaving semantics. *)
Theorem concurrentDecode_preserves_order (records : list Raw) :
  (∀ r, r ∈ records → ∃ v, Decode r = inl v) →
  ∃ vs, sequentialDecode records = inl vs
      ∧ length vs = length records
      ∧ (∀ sched, concurrentDecode sched records = Some (Some vs, None))
      ∧ (∀ s res, rtc step (init records) s → pc s = Returned res →
                  res = (Some vs, None)).
Proof.
  intros Hok. destruct (sequentialDecode_total _ Hok) as [vs Hseq].
  exists vs. split_and!; [done|by apply sequentialDecode_inl| |].
  - intros sched. by apply concurrentDecode_all_decoded.
  - intros s res Hrtc Hpc.
    eapply returned_all_decoded; [by apply Inv_reachable|done|done].
Qed.

End PipelineFacts.
End PipelineFacts.

(** * Properties of the CRUD engine *)

Module CrudFacts.
Import Pipeline Crud.
Section CrudFacts.

Context {T Raw Store Filter Patch FindOptions PipelineSpec : Type}.
Variable zeroT : T.
Variable Decode : Raw → T + error.
Variable InsertOne : Store → T → Store * option error.
Variable UpdateOne :
  Store → Filter → Patch → bool → Store * (DriverUpdateResult + error).
Variable Find : Store → Filter → FindOptions → Cursor Raw + error.
Variable AggregateCursor : Store → PipelineSpec → Cursor Raw + error.

(** What the driver reports as the number of stored documents
    ([CountDocuments] with an empty filter). *)
Variable CountDocuments : Store → Z.

Local Abbreviation Create := (Crud.Create InsertOne).
Local Abbreviation Update := (Crud.Update UpdateOne).
Local Abbreviation FindMany := (Crud.FindMany zeroT Decode Find).
Local Abbreviation Aggregate := (Crud.Aggregate zeroT Decode AggregateCursor).
Local Abbreviation concurrentDecode := (Pipeline.concurrentDecode zeroT Decode).

Lemma concurrentDecode_failure (records : list Raw) k r e sched :
  records !! k = Some r → Decode r = inr e →
  ∃ e', concurrentDecode sched records = Some (None, Some e')
        ∧ Pipeline.isDecodeError Decode records e'.
Proof.
  intros Hk Hd.
  destruct (PipelineFacts.concurrentDecode_returns zeroT Decode sched records)
    as (s & res & -> & Hpc & Hrtc).
  destruct (PipelineFacts.returned_failure zeroT Decode records s res k r e)
    as (e' & -> & He'); [by apply PipelineFacts.Inv_reachable|done..|].
  eauto.
Qed.

Lemma FindMany_decode_failure sched st filter opts cur k r e :
  Find st filter opts = inl cur →
  batch cur !! k = Some r → Decode r = inr e →
  ∃ e', FindMany sched st filter opts = Some ((None, Some e'), Some cur).
Proof.
  intros Hfind Hk Hd.
  destruct (concurrentDecode_failure _ _ _ _ sched Hk Hd) as (e' & Hcd & _).
  exists e'. unfold Crud.FindMany. by rewrite Hfind, Hcd.
Qed.

Lemma Aggregate_decode_failure sched st pipeline cur k r e :
  AggregateCursor st pipeline = inl cur →
  batch cur !! k = Some r → Decode r = inr e →
  ∃ e', Aggregate sched st pipeline = Some ((None, Some e'), Some cur).
Proof.
  intros Hagg Hk Hd.
  destruct (concurrentDecode_failure _ _ _ _ sched Hk Hd) as (e' & Hcd & _).
  exists e'. unfold Crud.Aggregate. by rewrite Hagg, Hcd.
Qed.

(** C2. If the record at some index [k] of the fetched records fails to
    decode, then under every schedule [concurrentDecode] returns a nil list
    and a non-nil error, which is the decode error of one of the records;
    so do [FindMany] and [Aggregate] on a cursor that delivers these
    records; and so does every returned state of the interleaving
    semantics.  No list is returned with or in place of the error. *)
Theorem decode_failure_aborts (records : list Raw) (k : nat) (r : Raw) (e : error) :
  records !! k = Some r → Decode r = inr e →
  ∀ sched,
    (∃ e', concurrentDecode sched records = Some (None, Some e')
           ∧ Pipeline.isDecodeError Decode records e')
    ∧ (∀ st filter opts cur,
         Find st filter opts = inl cur → batch cur = records →
         ∃ e', FindMany sched st filter opts = Some ((None, Some e'), Some cur))
    ∧ (∀ st pipeline cur,
         AggregateCursor st pipeline = inl cur → batch cur = records →
         ∃ e', Aggregate sched st pipeline = Some ((None, Some e'), Some cur))
    ∧ (∀ s res, rtc (step zeroT Decode) (init records) s →
                pc s = Returned res → ∃ e', res = (None, Some e')).
Proof.
  intros Hk Hd sched. split_and!.
  - by eapply concurrentDecode_failure.
  - intros st filter opts c Hfind <-. by eapply FindMany_decode_failure.
  - intros st pipeline c Hagg <-. by eapply Aggregate_decode_failure.
  - intros s res Hrtc Hpc.
    destruct (PipelineFacts.returned_failure zeroT Decode records s res k r e)
      as (e' & -> & He'); [by apply PipelineFacts.Inv_reachable|done..|].
    eauto.
Qed.

(** C6. Whatever the filter, the patch and the upsert flag: when the
    driver reports a duplicate-key error, [Update] returns the
    unique-conflict outcome and a nil error; it returns the not-found
    outcome with a nil error exactly when the upsert flag is false and the
    driver reports success with zero matched documents; and when the flag
    is true and no document matched, the driver's upsert (one upserted
    document, one more stored document: the contract assumed of the driver
    for this call) is what the collection is left with, and the outcome
    reports the insertion. *)
Theorem Update_outcomes st filter update withUpsert st' r :
  UpdateOne st filter update withUpsert = (st', r) →
  (∀ ur, withUpsert = true → r = inl ur → MatchedCount ur = 0%Z →
         UpsertedCount ur = 1%Z ∧ CountDocuments st' = (CountDocuments st + 1)%Z) →
  (∀ e, r = inr e → IsDuplicateKeyError e = true →
        Update st filter update withUpsert
        = (st', (mkUpdateResult false true false, None)))
  ∧ ((Update st filter update withUpsert).2 = (mkUpdateResult true false false, None)
     ↔ withUpsert = false ∧ ∃ ur, r = inl ur ∧ MatchedCount ur = 0%Z)
  ∧ (∀ ur, withUpsert = true → r = inl ur → MatchedCount ur = 0%Z →
        Update st filter update withUpsert
        = (st', (mkUpdateResult false false true, None))
        ∧ CountDocuments (Update st filter update withUpsert).1
          = (CountDocuments st + 1)%Z).
Proof.
  intros Hcall Hupsert. unfold Crud.Update. rewrite Hcall. split_and!.
  - intros e -> ->. done.
  - destruct r as [ur|e].
    + destruct withUpsert; simpl.
      * split; [done|]. by intros [? _].
      * destruct (Z.eqb_spec (MatchedCount ur) 0) as [Hz|Hnz]; simpl.
        -- split; [|done]. intros _. eauto.
        -- split; [done|]. intros [_ (ur' & ? & ?)]. by simplify_eq.
    + destruct (IsDuplicateKeyError e); simpl.
      * split; [done|]. by intros [_ (ur' & ? & ?)].
      * split; [done|]. by intros [_ (ur' & ? & ?)].
  - intros ur -> -> Hm. destruct (Hupsert ur eq_refl eq_refl Hm) as [Hu Hc].
    simpl. rewrite Hu. simpl. done.
Qed.

(** C7. Every [UpdateResult] that [Update] returns has at most one of its
    three flags set, and on the path of a modification (the driver reported
    success and the not-found guard did not apply) neither [NotFound] nor
    [UniqueError] is set. *)
Theorem Update_flags_exclusive st filter update withUpsert :
  atMostOneFlag (Update st filter update withUpsert).2.1
  ∧ (∀ ur, (UpdateOne st filter update withUpsert).2 = inl ur →
           withUpsert = true ∨ MatchedCount ur ≠ 0%Z →
           NotFound (Update st filter update withUpsert).2.1 = false
           ∧ UniqueError (Update st filter update withUpsert).2.1 = false).
Proof.
  unfold Crud.Update, atMostOneFlag.
  destruct (UpdateOne st filter update withUpsert) as [st' [ur|e]]; simpl.
  - split.
    + destruct (negb withUpsert && (MatchedCount ur =? 0)%Z); simpl; [lia|].
      destruct (UpsertedCount ur =? 1)%Z; simpl; lia.
    + intros ur' ? Hmod. simplify_eq.
      destruct withUpsert; simpl; [done|].
      destruct Hmod as [?|Hnz]; [done|].
      destruct (Z.eqb_spec (MatchedCount ur') 0); [done|]. done.
  - split; [|done]. destruct (IsDuplicateKeyError e); simpl; lia.
Qed.

(** C8. When the insertion fails on a uniqueness constraint, [Create]
    returns [(false, nil)] and the collection holds as many documents as
    before (a failed insertion stores nothing: the contract assumed of the
    driver for this call); on any other failure it returns [(false, err)]
    with the driver's error; on success it returns [(true, nil)]. *)
Theorem Create_outcomes st t st' oe :
  InsertOne st t = (st', oe) →
  (∀ e, oe = Some e → IsDuplicateKeyError e = true →
        CountDocuments st' = CountDocuments st) →
  match oe with
  | Some e =>
      if IsDuplicateKeyError e
      then Create st t = (st', (false, None))
           ∧ CountDocuments (Create st t).1 = CountDocuments st
      else Create st t = (st', (false, Some e))
  | None => Create st t = (st', (true, None))
  end.
Proof.
  intros Hcall Hatomic. unfold Crud.Create. rewrite Hcall.
  destruct oe as [e|]; [|done].
  destruct (IsDuplicateKeyError e) eqn:Hdup; [|done].
  split; [done|]. simpl. by apply (Hatomic e).
Qed.

End CrudFacts.
End CrudFacts.

(** * Properties of the client singleton *)

Module ClientFacts.
Import Client.
Section ClientFacts.

Context {ClientT : Type}.

Local Abbreviation Env := (@Env ClientT).
Local Abbreviation World := (@World ClientT).

(** Once the [sync.Once] has run, [initialize] changes nothing and reports
    no error. *)
Lemma initialize_spent (env : Env) cfg (w : World) :
  singleExecution w = true → initialize env cfg w = (w, None).
Proof. intros Hdone. unfold initialize. by rewrite Hdone. Qed.

Lemma DB_spent_absent (env : Env) cfg (w : World) :
  singleExecution w = true → clientInstance w = None →
  DB env cfg w = (w, (None, Some notInitialized)).
Proof.
  intros Hdone Habs. unfold DB. rewrite initialize_spent by done.
  by rewrite Habs.
Qed.

Lemma DBs_spent_absent (envs : list Env) cfg (w : World) :
  singleExecution w = true → clientInstance w = None →
  DBs envs cfg w = (w, replicate (length envs) (None, Some notInitialized)).
Proof.
  intros Hdone Habs. induction envs as [|env envs IH]; simpl; [done|].
  rewrite DB_spent_absent by done. by rewrite IH.
Qed.

Lemma initialize_failure (env : Env) cfg (w : World) e :
  (initialize env cfg w).2 = Some e →
  singleExecution w = false
  ∧ singleExecution (initialize env cfg w).1 = true
  ∧ clientInstance (initialize env cfg w).1 = clientInstance w.
Proof.
  unfold initialize. destruct (singleExecution w); [done|].
  destruct (Connect env (clientOptions cfg)) as [c|e1]; [|done].
  by destruct (Ping env c None).
Qed.

(** C3, as amended.  If the first acquisition attempt fails with [e] (an
    error of [mongo.Connect] or of the ping), the first call of [DB]
    returns a nil handle and [e]; the attempt is never repeated and no
    client is stored; and every later call of [DB], whatever the driver
    would answer by then, returns a nil handle and the error
    "mongo client was not initialized", without calling the driver. *)
Theorem DB_first_failure_is_terminal (env : Env) cfg (e : error) (later : list Env) :
  (initialize env cfg world0).2 = Some e →
  (DB env cfg world0).2 = (None, Some e)
  ∧ singleExecution (DB env cfg world0).1 = true
  ∧ clientInstance (DB env cfg world0).1 = None
  ∧ DBs later cfg (DB env cfg world0).1
    = ((DB env cfg world0).1,
       replicate (length later) (None, Some notInitialized)).
Proof.
  intros Hfail. destruct (initialize_failure _ _ _ _ Hfail) as (_ & Hdone & Habs).
  assert (HDB : DB env cfg world0
                = ((initialize env cfg world0).1, (None, Some e))).
  { unfold DB. destruct (initialize env cfg world0) as [w' err].
    simpl in Hfail. by rewrite Hfail. }
  rewrite HDB. simpl. split_and!; [done|done|done|].
  by apply DBs_spent_absent.
Qed.

(** C9. [Check] never changes the [sync.Once] or the cached client.  With
    no client it returns exactly one error and calls nothing; with a client
    whose ping succeeds it returns the empty list; with a client whose ping
    fails it returns one error, whose text carries the text of the
    failure. *)
Theorem Check_reflects_state (env : Env) (w : World) :
  singleExecution (Check env w).1 = singleExecution w
  ∧ clientInstance (Check env w).1 = clientInstance w
  ∧ (clientInstance w = None →
       (Check env w).2 = [errorsNew "the mongo client is nil"]
       ∧ trace (Check env w).1 = trace w)
  ∧ (∀ c, clientInstance w = Some c → Ping env c (Some Primary) = None →
       (Check env w).2 = [])
  ∧ (∀ c err, clientInstance w = Some c → Ping env c (Some Primary) = Some err →
       (Check env w).2
       = [errorsNew ("the mongo check has failed: " +:+ Error err)]).
Proof.
  unfold Check. destruct (clientInstance w) as [c|] eqn:Hc.
  - destruct (Ping env c (Some Primary)) as [err|] eqn:Hp; simpl;
      split_and!; try done; intros; by simplify_eq.
  - simpl. split_and!; done.
Qed.

(** C10. Every call of [DB] returns a handle and a nil error, or a nil
    handle and an error, never nil with nil; and where [initialize] reports
    no error but no client is stored, [DB] returns the nil handle with the
    error "mongo client was not initialized". *)
Theorem DB_never_nil_nil (env : Env) cfg (w : World) :
  ((∃ db, (DB env cfg w).2 = (Some db, None))
   ∨ (∃ e, (DB env cfg w).2 = (None, Some e)))
  ∧ ((initialize env cfg w).2 = None →
     clientInstance (initialize env cfg w).1 = None →
     (DB env cfg w).2 = (None, Some (errorsNew "mongo client was not initialized"))).
Proof.
  unfold DB. destruct (initialize env cfg w) as [w' [e|]]; simpl.
  - split; [right; eauto|done].
  - destruct (clientInstance w') as [c|]; simpl.
    + split; [left; eauto|done].
    + split; [right; eauto|done].
Qed.

End ClientFacts.
End ClientFacts.

(** * The engine and the singleton on the reference driver *)

Module Examples.
Import MemDriver.

(** C1 on three well-formed records. *)
Lemma concurrentDecode_preserves_order_witness :
  ∃ vs, Pipeline.sequentialDecode Decode
          [WellFormed alice; WellFormed bob; WellFormed carol] = inl vs
      ∧ length vs = 3
      ∧ (∀ sched, Pipeline.concurrentDecode zeroAccount Decode sched
                    [WellFormed alice; WellFormed bob; WellFormed carol]
                  = Some (Some vs, None))
      ∧ (∀ s res,
           rtc (Pipeline.step zeroAccount Decode)
               (Pipeline.init [WellFormed alice; WellFormed bob; WellFormed carol]) s →
           Pipeline.pc s = Pipeline.Returned res → res = (Some vs, None)).
Proof.
  apply (PipelineFacts.concurrentDecode_preserves_order zeroAccount Decode
           [WellFormed alice; WellFormed bob; WellFormed carol]).
  intros r Hr. repeat (apply elem_of_cons in Hr as [->|Hr]); simpl; eauto.
  by apply elem_of_nil in Hr.
Defined.

(** C2 on a cursor whose second record does not decode, under the schedule
    [2; 0; 1]. *)
Lemma decode_failure_aborts_witness :
  (∃ e', Pipeline.concurrentDecode zeroAccount Decode [2; 0; 1]
           [WellFormed alice; Malformed undecodable]
         = Some (None, Some e')
         ∧ Pipeline.isDecodeError Decode
             [WellFormed alice; Malformed undecodable] e')
  ∧ (∀ st filter opts cur,
       FindCorrupt st filter opts = inl cur →
       Crud.batch cur
       = [WellFormed alice; Malformed undecodable] →
       ∃ e', Crud.FindMany zeroAccount Decode FindCorrupt [2; 0; 1] st filter opts
             = Some ((None, Some e'), Some cur))
  ∧ (∀ st pipeline cur,
       FindCorrupt st pipeline tt = inl cur →
       Crud.batch cur
       = [WellFormed alice; Malformed undecodable] →
       ∃ e', Crud.Aggregate zeroAccount Decode (λ st p, FindCorrupt st p tt)
               [2; 0; 1] st pipeline
             = Some ((None, Some e'), Some cur))
  ∧ (∀ s res,
       rtc (Pipeline.step zeroAccount Decode)
           (Pipeline.init
              [WellFormed alice; Malformed undecodable]) s →
       Pipeline.pc s = Pipeline.Returned res → ∃ e', res = (None, Some e')).
Proof.
  apply (CrudFacts.decode_failure_aborts zeroAccount Decode FindCorrupt
           (λ st p, FindCorrupt st p tt)
           [WellFormed alice; Malformed undecodable]
           1 (Malformed undecodable)
           (driverError OtherFailure undecodable));
    reflexivity.
Defined.

(** C3, as amended, on a backend that refuses the first connection and is
    reachable later. *)
Lemma DB_first_failure_is_terminal_witness :
  (Client.DB unreachable cfg Client.world0).2 = (None, Some refused)
  ∧ Client.singleExecution (Client.DB unreachable cfg Client.world0).1 = true
  ∧ Client.clientInstance (Client.DB unreachable cfg Client.world0).1 = None
  ∧ Client.DBs [reachable; unreachable; reachable] cfg
      (Client.DB unreachable cfg Client.world0).1
    = ((Client.DB unreachable cfg Client.world0).1,
       replicate (length [reachable; unreachable; reachable])
         (None, Some Client.notInitialized)).
Proof.
  apply (ClientFacts.DB_first_failure_is_terminal unreachable cfg refused
           [reachable; unreachable; reachable]).
  reflexivity.
Defined.

(** C3, as stated, fails: the first call against a backend that refuses
    the connection returns the driver's error, and the second call, in the
    same environment, returns a different error. *)
Lemma DB_failure_not_cached :
  (Client.DB unreachable cfg Client.world0).2 = (None, Some refused)
  ∧ (Client.DB unreachable cfg (Client.DB unreachable cfg Client.world0).1).2
    = (None, Some (errorsNew "mongo client was not initialized"))
  ∧ (Client.DB unreachable cfg (Client.DB unreachable cfg Client.world0).1).2
    ≠ (Client.DB unreachable cfg Client.world0).2.
Proof. split_and!; [reflexivity|reflexivity|]. vm_compute. discriminate. Qed.

(** C4, on the code: [Create] hands the document to the driver as it
    received it, so a document whose [CreatedAt] is the zero value is
    stored with the zero value; [Update] hands the patch over as it
    received it, so the stored document's [UpdatedAt] is whatever the patch
    makes of it, here the zero value it had. *)
Theorem timestamps_are_not_stamped :
  (∀ t, Crud.Create InsertOne [] t = ([t], (true, None)))
  ∧ CreatedAt <$> (Crud.Create InsertOne [] alice).1 = [0%Z]
  ∧ (∀ d u, Crud.Update UpdateOne [d] (λ _, true) u false
            = ([u d], (Crud.mkUpdateResult false false false, None)))
  ∧ UpdatedAt <$> (Crud.Update UpdateOne [alice] (byEmail "alice@example.org")
                     (setEmailAge "alice@example.org" 31) false).1 = [0%Z].
Proof. split_and!; reflexivity. Qed.

(** C5, on the code: when a record does not decode, and when the cursor
    reports an error after the loop, [FindMany] and [Aggregate] return
    with the error and leave the cursor unclosed, under every schedule. *)
Theorem cursor_left_open_on_failure (sched : list nat) (st : Store) (f : Filter) :
  (∃ e cur, Crud.FindMany zeroAccount Decode FindCorrupt sched st f tt
            = Some ((None, Some e), Some cur) ∧ Crud.closed cur = false)
  ∧ (∃ e cur, Crud.Aggregate zeroAccount Decode (λ st p, FindCorrupt st p tt)
                sched st f
              = Some ((None, Some e), Some cur) ∧ Crud.closed cur = false)
  ∧ (∃ cur, Crud.FindMany zeroAccount Decode FindInterrupted sched st f tt
            = Some ((None, Some refused), Some cur) ∧ Crud.closed cur = false)
  ∧ (∃ cur, Crud.Aggregate zeroAccount Decode (λ st p, FindInterrupted st p tt)
              sched st f
            = Some ((None, Some refused), Some cur) ∧ Crud.closed cur = false).
Proof.
  split_and!.
  - destruct (CrudFacts.FindMany_decode_failure zeroAccount Decode FindCorrupt
                sched st f tt corruptCursor 1 (Malformed undecodable)
                (driverError OtherFailure undecodable)) as [e He]; [reflexivity..|].
    exists e, corruptCursor. split; [exact He|reflexivity].
  - destruct (CrudFacts.Aggregate_decode_failure zeroAccount Decode
                (λ st p, FindCorrupt st p tt) sched st f corruptCursor 1
                (Malformed undecodable) (driverError OtherFailure undecodable))
      as [e He]; [reflexivity..|].
    exists e, corruptCursor. split; [exact He|reflexivity].
  - pose proof (PipelineFacts.concurrentDecode_all_decoded zeroAccount Decode
                  sched [WellFormed alice] [alice] eq_refl) as Hcd.
    eexists. unfold Crud.FindMany. simpl. rewrite Hcd. simpl. done.
  - pose proof (PipelineFacts.concurrentDecode_all_decoded zeroAccount Decode
                  sched [WellFormed alice] [alice] eq_refl) as Hcd.
    eexists. unfold Crud.Aggregate. simpl. rewrite Hcd. simpl. done.
Qed.

(** On the success path the documents come back in the order of the
    collection and the cursor is closed. *)
Example FindMany_success_closes_cursor :
  Crud.FindMany zeroAccount Decode Find [3; 1; 0; 2] [alice; bob; carol]
    (λ d, (Age d <? 40)%Z) tt
  = Some ((Some [alice; carol], None),
          Some (Crud.mkCursor RawDoc [WellFormed alice; WellFormed carol]
                  None None true)).
Proof. vm_compute. reflexivity. Qed.

(** C6 on an upsert whose filter matches no stored document. *)
Lemma Update_outcomes_witness :
  (∀ e, @inl Crud.DriverUpdateResult error (Crud.mkDriverUpdateResult 0 0 1) = inr e →
        IsDuplicateKeyError e = true →
        Crud.Update UpdateOne [alice] (byEmail "carol@example.org")
          (setEmailAge "carol@example.org" 27) true
        = ([alice; carol], (Crud.mkUpdateResult false true false, None)))
  ∧ ((Crud.Update UpdateOne [alice] (byEmail "carol@example.org")
        (setEmailAge "carol@example.org" 27) true).2
     = (Crud.mkUpdateResult true false false, None)
     ↔ true = false
       ∧ ∃ ur, @inl Crud.DriverUpdateResult error (Crud.mkDriverUpdateResult 0 0 1)
               = inl ur ∧ Crud.MatchedCount ur = 0%Z)
  ∧ (∀ ur, true = true →
        @inl Crud.DriverUpdateResult error (Crud.mkDriverUpdateResult 0 0 1) = inl ur →
        Crud.MatchedCount ur = 0%Z →
        Crud.Update UpdateOne [alice] (byEmail "carol@example.org")
          (setEmailAge "carol@example.org" 27) true
        = ([alice; carol], (Crud.mkUpdateResult false false true, None))
        ∧ CountDocuments
            (Crud.Update UpdateOne [alice] (byEmail "carol@example.org")
               (setEmailAge "carol@example.org" 27) true).1
          = (CountDocuments [alice] + 1)%Z).
Proof.
  apply (CrudFacts.Update_outcomes UpdateOne CountDocuments [alice]
           (byEmail "carol@example.org") (setEmailAge "carol@example.org" 27) true
           [alice; carol] (inl (Crud.mkDriverUpdateResult 0 0 1))).
  - reflexivity.
  - intros ur _ Heq _. injection Heq as <-. split; reflexivity.
Defined.

(** C8 on the insertion of a document whose unique key is taken. *)
Lemma Create_outcomes_witness :
  Crud.Create InsertOne [alice; bob] alice = ([alice; bob], (false, None))
  ∧ CountDocuments (Crud.Create InsertOne [alice; bob] alice).1
    = CountDocuments [alice; bob].
Proof.
  apply (CrudFacts.Create_outcomes InsertOne CountDocuments [alice; bob] alice
           [alice; bob] (Some duplicateKey)).
  - reflexivity.
  - intros e _ _. reflexivity.
Defined.

End Examples.

(** * Further properties of the client singleton *)

Module ClientMore.
Import Client.
Section ClientMore.

Context {ClientT : Type}.

Local Abbreviation Env := (@Env ClientT).
Local Abbreviation World := (@World ClientT).
Local Abbreviation Call := (@Call ClientT).

Lemma connects_app (t1 t2 : list Event) :
  connects (t1 ++ t2) = connects t1 + connects t2.
Proof.
  induction t1 as [|[opts|rp] t1 IH]; simpl; [done|by rewrite IH|done].
Qed.

(** What a successful [DB] leaves behind. *)
Lemma DB_success_state (env : Env) cfg (w : World) db :
  (DB env cfg w).2 = (Some db, None) →
  (singleExecution w = true ∨ singleExecution (DB env cfg w).1 = true)
  ∧ clientInstance (DB env cfg w).1 = Some (dbClient db)
  ∧ dbName db = MongoDBName cfg.
Proof.
  unfold DB, initialize. destruct (singleExecution w) eqn:Hs; simpl.
  - destruct (clientInstance w) as [c|] eqn:Hc; simpl; [|done].
    intros ?. simplify_eq. rewrite Hc. eauto.
  - destruct (Connect env (clientOptions cfg)) as [c|e]; simpl; [|done].
    destruct (Ping env c None); simpl; [done|].
    intros ?. simplify_eq. simpl. eauto.
Qed.

Lemma DB_spent_present (env : Env) cfg (w : World) c :
  singleExecution w = true → clientInstance w = Some c →
  DB env cfg w = (w, (Some (mkDatabase c (MongoDBName cfg)), None)).
Proof.
  intros Hs Hc. unfold DB. rewrite ClientFacts.initialize_spent by done.
  by rewrite Hc.
Qed.

Lemma DB_sets_once (env : Env) cfg (w : World) :
  singleExecution (DB env cfg w).1 = true.
Proof.
  unfold DB, initialize. destruct (singleExecution w) eqn:Hs; simpl.
  - by destruct (clientInstance w).
  - destruct (Connect env (clientOptions cfg)) as [c|e]; simpl; [|done].
    by destruct (Ping env c None).
Qed.

(** A handle that [DB] has returned once is returned by every later call,
    whatever the backend does by then, and no later call reaches the
    driver or changes the package state. *)
Theorem DB_success_is_cached (env : Env) cfg (w : World) db (later : list Env) :
  (DB env cfg w).2 = (Some db, None) →
  DBs later cfg (DB env cfg w).1
  = ((DB env cfg w).1, replicate (length later) (Some db, None)).
Proof.
  intros Hok. destruct (DB_success_state _ _ _ _ Hok) as (_ & Hc & Hname).
  pose proof (DB_sets_once env cfg w) as Hs.
  assert (Hdb : db = mkDatabase (dbClient db) (MongoDBName cfg)).
  { destruct db as [c n]. simpl in *. by subst. }
  induction later as [|env' later IH]; simpl; [done|].
  rewrite (DB_spent_present env' cfg _ _ Hs Hc), IH. by rewrite <-Hdb.
Qed.

Lemma call_once_spent cfg (c : Call) (w : World) :
  singleExecution w = true →
  singleExecution (call cfg c w) = true
  ∧ clientInstance (call cfg c w) = clientInstance w
  ∧ connects (trace (call cfg c w)) = connects (trace w).
Proof.
  intros Hs. destruct c as [env|env]; simpl.
  - unfold DB. rewrite ClientFacts.initialize_spent by done.
    destruct (clientInstance w) eqn:Hc; simpl; rewrite ?Hc; done.
  - unfold Check. destruct (clientInstance w) as [c|] eqn:Hc; simpl;
      [|by rewrite Hc].
    destruct (Ping env c (Some Primary)); simpl;
      rewrite ?connects_app; simpl; split_and!; try done; lia.
Qed.

Lemma calls_once_spent cfg (cs : list Call) (w : World) :
  singleExecution w = true →
  singleExecution (calls cfg cs w) = true
  ∧ clientInstance (calls cfg cs w) = clientInstance w
  ∧ connects (trace (calls cfg cs w)) = connects (trace w).
Proof.
  revert w. induction cs as [|c cs IH]; intros w Hs; simpl; [done|].
  destruct (call_once_spent cfg c w Hs) as (Hs' & Hc' & Ht').
  destruct (IH _ Hs') as (? & ? & ?). split_and!; congruence.
Qed.

Lemma call_before_once cfg (c : Call) (w : World) :
  singleExecution w = false → clientInstance w = None →
  if isCallDB c
  then singleExecution (call cfg c w) = true
       ∧ connects (trace (call cfg c w)) = S (connects (trace w))
  else call cfg c w = w.
Proof.
  intros Hs Hc. destruct c as [env|env]; simpl.
  - split; [apply DB_sets_once|].
    unfold DB, initialize. rewrite Hs.
    destruct (Connect env (clientOptions cfg)) as [c|e]; simpl.
    + destruct (Ping env c None); simpl; rewrite connects_app; simpl; lia.
    + rewrite connects_app. simpl. lia.
  - unfold Check. by rewrite Hc.
Qed.

(** Whatever calls of [DB] and [Check] a process makes, in whatever
    environments, [mongo.Connect] is called exactly once if [DB] is called
    at all, and never otherwise. *)
Theorem Connect_called_once cfg (cs : list Call) :
  connects (trace (calls cfg cs world0)) = if existsb isCallDB cs then 1 else 0.
Proof.
  assert (Hgen : ∀ w : World,
    singleExecution w = false → clientInstance w = None →
    connects (trace (calls cfg cs w))
    = connects (trace w) + if existsb isCallDB cs then 1 else 0).
  { induction cs as [|c cs IH]; intros w Hs Hc; simpl; [lia|].
    pose proof (call_before_once cfg c w Hs Hc) as Hcall.
    destruct (isCallDB c); simpl.
    - destruct Hcall as [Hs' Ht'].
      destruct (calls_once_spent cfg cs _ Hs') as (_ & _ & ->). lia.
    - rewrite Hcall. by apply IH. }
  by rewrite Hgen.
Qed.

(** After a first acquisition attempt that failed, the health check
    reports "the mongo client is nil" for the rest of the process, whatever
    calls of [DB] and [Check] come in between and however healthy the
    backend has become, and it does so without pinging. *)
Theorem Check_after_failed_init (env : Env) cfg (e : error)
    (cs : list Call) (env' : Env) :
  (initialize env cfg world0).2 = Some e →
  (Check env' (calls cfg cs (DB env cfg world0).1)).2
  = [errorsNew "the mongo client is nil"]
  ∧ (Check env' (calls cfg cs (DB env cfg world0).1)).1
    = calls cfg cs (DB env cfg world0).1.
Proof.
  intros Hfail.
  destruct (ClientFacts.initialize_failure _ _ _ _ Hfail) as (_ & Hs & Hc).
  assert (HDB : (DB env cfg world0).1 = (initialize env cfg world0).1).
  { unfold DB. destruct (initialize env cfg world0) as [w' err].
    simpl in *. by rewrite Hfail. }
  rewrite HDB.
  destruct (calls_once_spent cfg cs _ Hs) as (_ & Hc' & _).
  unfold Check. rewrite Hc', Hc. done.
Qed.

End ClientMore.
End ClientMore.

(** * Further properties of the decode pipeline *)

Module PipelineMore.
Import Pipeline.
Section PipelineMore.

Context {T Raw : Type}.
Variable zeroT : T.
Variable Decode : Raw → T + error.

Local Abbreviation pstate := (@pstate T Raw).
Local Abbreviation step := (@step T Raw zeroT Decode).
Local Abbreviation main_step := (@main_step T Raw zeroT).
Local Abbreviation goroutine_step := (@goroutine_step T Raw Decode).
Local Abbreviation sched_step := (@sched_step T Raw zeroT Decode).
Local Abbreviation run := (@run T Raw zeroT Decode).
Local Abbreviation Inv := (@Inv T Raw zeroT Decode).
Local Abbreviation sequentialDecode := (@sequentialDecode T Raw Decode).
Local Abbreviation concurrentDecode := (@concurrentDecode T Raw zeroT Decode).

Lemma length_spawned (i : Z) (l : list Raw) : length (spawned i l) = length l.
Proof. revert i. induction l as [|r l IH]; intros i; simpl; [done|by rewrite IH]. Qed.

Lemma lookup_spawned (i : Z) (l : list Raw) (k : nat) :
  spawned i l !! k = GDecode (i + Z.of_nat k) <$> l !! k.
Proof.
  revert i k. induction l as [|r l IH]; intros i [|k]; simpl; try done.
  - by rewrite Z.add_0_r.
  - rewrite IH. by replace (i + 1 + Z.of_nat k)%Z with (i + Z.pos (Pos.of_succ_nat k))%Z by lia.
Qed.

Lemma Forall_spawned (i : Z) (l : list Raw) : Forall isGDecode (spawned i l).
Proof. revert i. induction l as [|r l IH]; intros i; simpl; constructor; [done|apply IH]. Qed.

Lemma delete_insert_same {A} (l : list A) k x : delete k (<[k := x]> l) = delete k l.
Proof. revert k. induction l as [|a l IH]; intros [|k]; simpl; [done..|by rewrite IH]. Qed.

(** The loop can start a goroutine on every record before any of them
    runs. *)
Lemma dispatch_all (l : list Raw) (i : Z) g (m : gmap Z T) :
  rtc step (mkP AtLoop l i g None m)
           (mkP AtLoop [] (i + Z.of_nat (length l)) (g ++ spawned (i + 1) l) None m).
Proof.
  revert i g. induction l as [|r l IH]; intros i g; simpl.
  - rewrite Z.add_0_r, app_nil_r. apply rtc_refl.
  - eapply rtc_l.
    + apply (step_main zeroT Decode (mkP AtLoop (r :: l) i g None m)). done.
    + simpl. specialize (IH (i + 1)%Z (g ++ [GDecode (i + 1) r])).
      rewrite <-app_assoc in IH. simpl in IH.
      replace (i + Z.of_nat (S (length l)))%Z
        with (i + 1 + Z.of_nat (length l))%Z by lia.
      exact IH.
Qed.

(** Once [err] is set and only undecoded goroutines are left, the call
    returns that error. *)
Lemma drain (l : list (@goroutine Raw)) c i e (m : gmap Z T) :
  Forall isGDecode l →
  ∃ s', rtc step (mkP AtWait c i l (Some e) m) s'
        ∧ pc s' = Returned (None, Some e).
Proof.
  revert m. induction l as [|g l IH]; intros m Hall.
  - eexists. split.
    + eapply rtc_once.
      apply (step_main zeroT Decode (mkP AtWait c i [] (Some e) m)). done.
    + done.
  - inversion Hall as [|g' l' Hg Hl]; subst. destruct g as [j r|]; [|done].
    pose proof (step_goroutine zeroT Decode
                  (mkP AtWait c i (GDecode j r :: l) (Some e) m) 0) as Hstep.
    unfold Pipeline.goroutine_step in Hstep. simpl in Hstep.
    destruct (Decode r) as [v|e'].
    + destruct (IH (<[j := v]> m) Hl) as (s' & Hrtc & Hpc).
      exists s'. split; [|done]. eapply rtc_l; [apply Hstep; lia|done].
    + destruct (IH m Hl) as (s' & Hrtc & Hpc).
      exists s'. split; [|done]. eapply rtc_l; [apply Hstep; lia|done].
Qed.

Lemma step_not_returned records (s s' : pstate) :
  Inv records s → step s s' → returned s = false.
Proof.
  intros HI Hstep. destruct (pc s) as [| |res] eqn:Hpc;
    unfold returned; rewrite Hpc; try done.
  destruct (inv_ret _ _ _ _ HI res Hpc) as [Hnil _].
  revert Hpc Hnil. destruct Hstep as [s Hen|s k Hk]; intros Hpc Hnil.
  - unfold main_enabled in Hen. by rewrite Hpc in Hen.
  - rewrite Hnil in Hk. simpl in Hk. lia.
Qed.

(** Every interleaving that ends in a returned state is the run of some
    schedule. *)
Lemma reachable_scheduled records (s s' : pstate) :
  rtc step s s' → Inv records s → returned s' = true →
  ∀ fuel, measure s ≤ fuel → ∃ sched, run fuel sched s = s'.
Proof.
  induction 1 as [s|s s1 s' Hstep Hrtc IH]; intros HI Hret fuel Hfuel.
  - exists []. destruct fuel; simpl; [done|by rewrite Hret].
  - pose proof (step_not_returned _ _ _ HI Hstep) as Hnr.
    pose proof (PipelineFacts.step_measure zeroT Decode _ _ Hstep) as Hlt.
    destruct fuel as [|fuel]; [lia|].
    destruct (PipelineFacts.sched_step_complete zeroT Decode _ _ Hstep) as [c Hc].
    destruct (IH (PipelineFacts.Inv_step zeroT Decode _ _ _ HI Hstep) Hret fuel)
      as [sched Hrun]; [lia|].
    exists (c :: sched). simpl. rewrite Hnr. simpl. by rewrite Hc.
Qed.

(** The error that is returned depends on the schedule: the decode error
    of every record that fails to decode is the error returned under some
    schedule, whether or not an earlier record fails too. *)
Theorem any_decode_error_can_be_returned (records : list Raw) k r e :
  records !! k = Some r → Decode r = inr e →
  ∃ sched, concurrentDecode sched records = Some (None, Some e).
Proof.
  intros Hk Hd.
  set (n := (-1 + Z.of_nat (length records))%Z).
  set (gs := spawned (-1 + 1) records).
  assert (Hgk : gs !! k = Some (GDecode (Z.of_nat k) r)).
  { unfold gs. rewrite lookup_spawned, Hk. simpl. by rewrite ?Z.add_0_l. }
  assert (Hlen : k < length gs) by (by eapply lookup_lt_Some).
  (* every record is dispatched, then the loop ends *)
  assert (H1 : rtc step (init records) (mkP AtWait [] n gs None ∅)).
  { eapply rtc_r; [apply (dispatch_all records (-1) [] ∅)|].
    apply (step_main zeroT Decode (mkP AtLoop [] n ([] ++ gs) None ∅)). done. }
  (* goroutine [k] decodes, reads [err == nil], and sets [err] *)
  assert (H2 : rtc step (mkP AtWait [] n gs None ∅)
                        (mkP AtWait [] n (delete k gs) (Some e) ∅)).
  { eapply rtc_l.
    - apply (step_goroutine zeroT Decode (mkP AtWait [] n gs None ∅) k). done.
    - unfold Pipeline.goroutine_step. simpl. rewrite Hgk, Hd.
      eapply rtc_once.
      pose proof (step_goroutine zeroT Decode
                    (mkP AtWait [] n (<[k := GSetErr e]> gs) None ∅) k) as Hstep.
      unfold Pipeline.goroutine_step in Hstep. simpl in Hstep.
      rewrite list_lookup_insert_eq in Hstep by done.
      rewrite delete_insert_same in Hstep. apply Hstep.
      by rewrite length_insert. }
  (* the other goroutines finish and the call returns *)
  destruct (drain (delete k gs) [] n e ∅) as (s' & H3 & Hpc).
  { apply Forall_delete. apply Forall_spawned. }
  assert (Hrtc : rtc step (init records) s').
  { etrans; [exact H1|]. etrans; [exact H2|exact H3]. }
  destruct (reachable_scheduled records _ _ Hrtc) with (fuel := 3 * length records + 2)
    as [sched Hrun].
  - apply PipelineFacts.Inv_init.
  - unfold returned. by rewrite Hpc.
  - unfold measure. simpl. lia.
  - exists sched. unfold Pipeline.concurrentDecode. by rewrite Hrun, Hpc.
Qed.

(** The number of decode goroutines alive at the same time never exceeds
    the number of records, and nothing keeps it lower: in some
    interleaving one goroutine per record is alive. *)
Theorem goroutines_bounded_only_by_records (records : list Raw) :
  (∀ s, rtc step (init records) s → length (running s) ≤ length records)
  ∧ (∃ s, rtc step (init records) s ∧ length (running s) = length records).
Proof.
  split.
  - intros s Hrtc.
    assert (Hb : (Z.of_nat (length (running s)) ≤ idx s + 1)%Z).
    { apply (rtc_ind_r (R := step)
               (λ s, (Z.of_nat (length (running s)) ≤ idx s + 1)%Z) (init records));
        [simpl; lia| |done].
      intros s1 s2 _ Hstep Hle. revert Hle.
      destruct Hstep as [s0 Hen|s0 k Hk]; intros Hle.
      - destruct s0 as [p c i g e m]. unfold Pipeline.main_step. simpl in *.
        destruct p; simpl; [| |done].
        + destruct c; simpl; [done|]. destruct e; simpl; [done|].
          rewrite length_app. simpl. lia.
        + by destruct g.
      - apply lookup_lt_is_Some_2 in Hk as [g Hg].
        pose proof (length_delete (running s0) k (ltac:(eauto))) as Hdel.
        destruct s0 as [p c i gs e m]. unfold Pipeline.goroutine_step. simpl in *.
        rewrite Hg. destruct g as [j r|e'].
        + destruct (Decode r); simpl; [lia|].
          destruct e; simpl; [lia|]. by rewrite length_insert.
        + simpl. lia. }
    pose proof (inv_idx _ _ _ _ (PipelineFacts.Inv_reachable zeroT Decode _ _ Hrtc)).
    lia.
  - eexists. split; [apply (dispatch_all records (-1) [] ∅)|].
    simpl. apply length_spawned.
Qed.

(** On every input and under every schedule the call returns, and what it
    returns is fixed by the sequential decoding up to the choice of the
    error: the sequential list when every record decodes, and otherwise a
    nil list with the decode error of some record. *)
Lemma concurrentDecode_outcome sched (records : list Raw) :
  match sequentialDecode records with
  | inl vs => concurrentDecode sched records = Some (Some vs, None)
  | inr _ => ∃ e, concurrentDecode sched records = Some (None, Some e)
  end.
Proof.
  destruct (sequentialDecode records) as [vs|e] eqn:Hseq.
  - by apply PipelineFacts.concurrentDecode_all_decoded.
  - assert (Hfail : ∃ k r e', records !! k = Some r ∧ Decode r = inr e').
    { clear sched. revert e Hseq.
      induction records as [|r0 rest IH]; intros e Hseq; simpl in Hseq; [done|].
      destruct (Decode r0) as [v0|e0] eqn:Hd0.
      - destruct (Pipeline.sequentialDecode Decode rest) as [vs|e1] eqn:Hs; [done|].
        destruct (IH _ eq_refl) as (k & r & e' & ? & ?).
        exists (S k), r, e'. done.
      - exists 0, r0, e0. done. }
    destruct Hfail as (k & r & e' & Hk & Hd).
    destruct (PipelineFacts.concurrentDecode_returns zeroT Decode sched records)
      as (s & res & -> & Hpc & Hrtc).
    destruct (PipelineFacts.returned_failure zeroT Decode records s res k r e')
      as (e'' & -> & _); [by apply PipelineFacts.Inv_reachable|done..|].
    eauto.
Qed.

End PipelineMore.
End PipelineMore.

(** * Further properties of the CRUD engine *)

Module CrudMore.
Import Crud.
Section CrudMore.

Context {T Raw Store Filter Patch FindOptions PipelineSpec
         CountOptions FindOneOptions : Type}.
Variable zeroT : T.
Variable Decode : Raw → T + error.
Variable InsertOne : Store → T → Store * option error.
Variable UpdateOne :
  Store → Filter → Patch → bool → Store * (DriverUpdateResult + error).
Variable Find : Store → Filter → FindOptions → Cursor Raw + error.
Variable AggregateCursor : Store → PipelineSpec → Cursor Raw + error.
Variable CountDocuments :
  Store → Filter → list (option CountOptions) → Z + error.
Variable collFindOne : Store → Filter → option FindOneOptions → Raw + error.
Variable DeleteOne : Store → Filter → Store * (Z + error).
Variable collDeleteMany : Store → Filter → Store * (Z + error).

Local Abbreviation Create := (Crud.Create InsertOne).
Local Abbreviation Update := (Crud.Update UpdateOne).
Local Abbreviation FindMany := (Crud.FindMany zeroT Decode Find).
Local Abbreviation Aggregate := (Crud.Aggregate zeroT Decode AggregateCursor).
Local Abbreviation Exists := (Crud.Exists CountDocuments).
Local Abbreviation Count := (Crud.Count CountDocuments).
Local Abbreviation FindOne := (Crud.FindOne Decode collFindOne).
Local Abbreviation Delete := (Crud.Delete DeleteOne).
Local Abbreviation DeleteMany := (Crud.DeleteMany collDeleteMany).
Local Abbreviation sequentialDecode := (Pipeline.sequentialDecode Decode).

(** No operation of the engine returns a value together with an error:
    whenever the error is not nil, the other result is the zero value of
    its type ([false], the empty [UpdateResult], a nil pointer, a nil
    slice, [0]). *)
Theorem error_comes_with_zero_value :
  (∀ st t e, (Create st t).2.2 = Some e → (Create st t).2.1 = false)
  ∧ (∀ st f u up e, (Update st f u up).2.2 = Some e →
       (Update st f u up).2.1 = mkUpdateResult false false false)
  ∧ (∀ st f o e, (Exists st f o).2 = Some e → (Exists st f o).1 = false)
  ∧ (∀ st f o e, (FindOne st f o).2 = Some e → (FindOne st f o).1 = None)
  ∧ (∀ st f e, (Delete st f).2.2 = Some e → (Delete st f).2.1 = false)
  ∧ (∀ st f e, (DeleteMany st f).2.2 = Some e → (DeleteMany st f).2.1 = 0%Z)
  ∧ (∀ sched st f o out e, FindMany sched st f o = Some out →
       out.1.2 = Some e → out.1.1 = None)
  ∧ (∀ sched st p out e, Aggregate sched st p = Some out →
       out.1.2 = Some e → out.1.1 = None).
Proof.
  split_and!.
  - intros st t e. unfold Crud.Create.
    destruct (InsertOne st t) as [st' [e'|]]; [|done].
    by destruct (IsDuplicateKeyError e').
  - intros st f u up e. unfold Crud.Update.
    destruct (UpdateOne st f u up) as [st' [ur|e']].
    + by destruct (negb up && (MatchedCount ur =? 0)%Z).
    + by destruct (IsDuplicateKeyError e').
  - intros st f o e. unfold Crud.Exists.
    destruct (CountDocuments st f [o]) as [c|e']; [done|].
    by destruct (IsNoDocuments e').
  - intros st f o e. unfold Crud.FindOne.
    destruct (collFindOne st f o) as [raw|e'].
    + by destruct (Decode raw).
    + by destruct (IsNoDocuments e').
  - intros st f e. unfold Crud.Delete.
    destruct (DeleteOne st f) as [st' [n|e']].
    + by destruct (n =? 0)%Z.
    + by destruct (IsNoDocuments e').
  - intros st f e. unfold Crud.DeleteMany.
    by destruct (collDeleteMany st f) as [st' [n|e']].
  - intros sched st f o out e. unfold Crud.FindMany.
    destruct (Find st f o) as [c|e']; [|by intros; simplify_eq].
    destruct (Pipeline.concurrentDecode zeroT Decode sched (batch c))
      as [[res [e'|]]|]; [by intros; simplify_eq| |done].
    destruct (iterErr c); [by intros; simplify_eq|]. simpl.
    destruct (closeErr c); intros; by simplify_eq.
  - intros sched st p out e. unfold Crud.Aggregate.
    destruct (AggregateCursor st p) as [c|e']; [|by intros; simplify_eq].
    destruct (Pipeline.concurrentDecode zeroT Decode sched (batch c))
      as [[res [e'|]]|]; [by intros; simplify_eq| |done].
    destruct (iterErr c); [by intros; simplify_eq|]. simpl.
    destruct (closeErr c); intros; by simplify_eq.
Qed.

(** An absent document is a result, not an error.  When the driver reports
    [ErrNoDocuments], [Exists] and [Delete] return [(false, nil)] and
    [FindOne] returns [(nil, nil)].  [FindOne] returns a document exactly
    when the driver delivered one and it decoded; [Delete] returns [true]
    exactly when the driver reports success with a [DeletedCount] other
    than 0; [Exists] returns [true] exactly when the driver reports a
    positive count. *)
Theorem absent_is_not_an_error st f :
  (∀ o e, CountDocuments st f [o] = inr e → IsNoDocuments e = true →
        Exists st f o = (false, None))
  ∧ (∀ o e, collFindOne st f o = inr e → IsNoDocuments e = true →
        FindOne st f o = (None, None))
  ∧ (∀ e, (DeleteOne st f).2 = inr e → IsNoDocuments e = true →
        (Delete st f).2 = (false, None))
  ∧ (∀ o v, FindOne st f o = (Some v, None)
        ↔ ∃ raw, collFindOne st f o = inl raw ∧ Decode raw = inl v)
  ∧ ((Delete st f).2 = (true, None)
        ↔ ∃ n, (DeleteOne st f).2 = inl n ∧ n ≠ 0%Z)
  ∧ (∀ o, Exists st f o = (true, None)
        ↔ ∃ n, CountDocuments st f [o] = inl n ∧ (0 < n)%Z)
  ∧ (Delete st f).1 = (DeleteOne st f).1.
Proof.
  split_and!.
  - intros o e He Hno. unfold Crud.Exists. by rewrite He, Hno.
  - intros o e He Hno. unfold Crud.FindOne. by rewrite He, Hno.
  - intros e. unfold Crud.Delete. destruct (DeleteOne st f) as [st' r]. simpl.
    intros -> ->. done.
  - intros o v. unfold Crud.FindOne.
    destruct (collFindOne st f o) as [raw|e].
    + destruct (Decode raw) as [v'|e] eqn:Hd.
      * split; [intros ?; simplify_eq; eauto|].
        intros (raw' & ? & ?). simplify_eq. congruence.
      * split; [done|]. intros (raw' & ? & ?). simplify_eq. congruence.
    + destruct (IsNoDocuments e); (split; [done|]); by intros (raw' & ? & ?).
  - unfold Crud.Delete. destruct (DeleteOne st f) as [st' [n|e]]; simpl.
    + destruct (Z.eqb_spec n 0); simpl.
      * split; [done|]. intros (n' & ? & ?). by simplify_eq.
      * split; [eauto|done].
    + destruct (IsNoDocuments e); simpl; (split; [done|]); by intros (n' & ? & ?).
  - intros o. unfold Crud.Exists.
    destruct (CountDocuments st f [o]) as [n|e].
    + destruct (Z.gtb_spec n 0).
      * split; [intros _; exists n; split; [done|lia]|done].
      * split; [done|]. intros (n' & ? & ?). simplify_eq. lia.
    + destruct (IsNoDocuments e); (split; [done|]); by intros (n' & ? & ?).
  - unfold Crud.Delete. destruct (DeleteOne st f) as [st' [n|e]]; simpl.
    + by destruct (n =? 0)%Z.
    + by destruct (IsNoDocuments e).
Qed.

(** [Exists] with nil options and [Count] agree: where the driver gives a
    nil options pointer the meaning of no options (its contract, assumed
    for this call), [Exists] reports [true] exactly when [Count] is
    positive; and where the driver's counts are not negative, [Count]
    returns [-1] exactly when counting failed. *)
Theorem Exists_iff_Count_positive st f :
  CountDocuments st f [None] = CountDocuments st f [] →
  (∀ n, CountDocuments st f [] = inl n → (0 ≤ n)%Z) →
  (Exists st f None = (true, None) ↔ (0 < Count st f)%Z)
  ∧ (Count st f = (-1)%Z ↔ ∃ e, CountDocuments st f [] = inr e)
  ∧ (-1 ≤ Count st f)%Z.
Proof.
  intros Hnil Hpos. unfold Crud.Exists, Crud.Count. rewrite Hnil.
  destruct (CountDocuments st f []) as [n|e] eqn:Hc.
  - specialize (Hpos n eq_refl). split_and!.
    + destruct (Z.gtb_spec n 0); split; try done; lia.
    + split; [lia|]. by intros [e ?].
    + lia.
  - split_and!.
    + destruct (IsNoDocuments e); split; try done; lia.
    + split; eauto.
    + lia.
Qed.

Lemma cursor_exits sched (found : Cursor Raw + error) :
  ∃ out,
    match found with
    | inr e => Some ((None, Some e), None)
    | inl cur =>
        match Pipeline.concurrentDecode zeroT Decode sched (batch cur) with
        | None => None
        | Some (_, Some e) => Some ((None, Some e), Some cur)
        | Some (res, None) =>
            match iterErr cur with
            | Some e => Some ((None, Some e), Some cur)
            | None =>
                let '(cur', cerr) := Close cur in
                match cerr with
                | Some e => Some ((None, Some e), Some cur')
                | None => Some ((res, None), Some cur')
                end
            end
        end
    end = Some out
    ∧ (∀ vs, out.1 = (Some vs, None) ↔
         ∃ cur, found = inl cur ∧ sequentialDecode (batch cur) = inl vs
                ∧ iterErr cur = None ∧ closeErr cur = None)
    ∧ (out.1.1 = None ↔ is_Some out.1.2).
Proof.
  destruct found as [c|e].
  - pose proof (PipelineMore.concurrentDecode_outcome zeroT Decode sched (batch c)) as Hout.
    destruct (sequentialDecode (batch c)) as [vs|e] eqn:Hseq.
    + rewrite Hout. destruct (iterErr c) as [e|] eqn:Hi.
      * eexists. split; [done|]. simpl. split.
        -- intros vs'. split; [done|]. intros (c' & ? & _ & ? & _). simplify_eq; congruence.
        -- split; eauto.
      * simpl. destruct (closeErr c) as [e|] eqn:Hc.
        -- eexists. split; [done|]. simpl. split.
           ++ intros vs'. split; [done|]. intros (c' & ? & _ & _ & ?). simplify_eq; congruence.
           ++ split; eauto.
        -- eexists. split; [done|]. simpl. split.
           ++ intros vs'. split.
              ** intros ?. simplify_eq. exists c. done.
              ** intros (c' & ? & ? & _ & _). simplify_eq; congruence.
           ++ split; [done|]. by intros [? ?].
    + destruct Hout as [e' ->]. eexists. split; [done|]. simpl. split.
      * intros vs'. split; [done|]. intros (c' & ? & ? & _ & _). simplify_eq; congruence.
      * split; eauto.
  - eexists. split; [done|]. simpl. split.
    + intros vs'. split; [done|]. by intros (c' & ? & _).
    + split; eauto.
Qed.

(** Under every schedule [FindMany] and [Aggregate] return, with either a
    list or an error and never both or neither.  They return a list exactly
    when the driver gave a cursor, every record of it decodes, [cur.Err()]
    is nil and [cur.Close] succeeds; the list is then the documents in
    fetch order.  In particular a failure of [cur.Close] discards the
    documents already decoded. *)
Theorem FindMany_returns_documents_iff sched st (f : Filter) (o : FindOptions)
    (p : PipelineSpec) :
  (∃ out, FindMany sched st f o = Some out
     ∧ (∀ vs, out.1 = (Some vs, None) ↔
          ∃ cur, Find st f o = inl cur ∧ sequentialDecode (batch cur) = inl vs
                 ∧ iterErr cur = None ∧ closeErr cur = None)
     ∧ (out.1.1 = None ↔ is_Some out.1.2))
  ∧ (∃ out, Aggregate sched st p = Some out
     ∧ (∀ vs, out.1 = (Some vs, None) ↔
          ∃ cur, AggregateCursor st p = inl cur
                 ∧ sequentialDecode (batch cur) = inl vs
                 ∧ iterErr cur = None ∧ closeErr cur = None)
     ∧ (out.1.1 = None ↔ is_Some out.1.2)).
Proof.
  split.
  - apply (cursor_exits sched (Find st f o)).
  - apply (cursor_exits sched (AggregateCursor st p)).
Qed.

End CrudMore.
End CrudMore.

(** * Properties of the CORS setting *)

Module CorsFacts.
Import Stdlib.Strings.Ascii.
Import Cors.

Ltac all_bytes c := destruct c as [[] [] [] [] [] [] [] []]; vm_compute; done.

Lemma lowerByte_idem c : lowerByte (lowerByte c) = lowerByte c.
Proof. all_bytes c. Qed.

Lemma isSpace_lowerByte c : isSpace (lowerByte c) = isSpace c.
Proof. all_bytes c. Qed.

Lemma lowerByte_comma c : Ascii.eqb (lowerByte c) "," = Ascii.eqb c ",".
Proof. all_bytes c. Qed.

Lemma ToLower_idem s : ToLower (ToLower s) = ToLower s.
Proof. induction s as [|c s IH]; simpl; [done|]. by rewrite lowerByte_idem, IH. Qed.

Lemma ToLower_trimLeft s : trimLeft (ToLower s) = ToLower (trimLeft s).
Proof.
  induction s as [|c s IH]; simpl; [done|]. rewrite isSpace_lowerByte.
  by destruct (isSpace c).
Qed.

Lemma ToLower_trimRight s : trimRight (ToLower s) = ToLower (trimRight s).
Proof.
  induction s as [|c s IH]; simpl; [done|]. rewrite IH, isSpace_lowerByte.
  destruct (trimRight s); simpl; [by destruct (isSpace c)|done].
Qed.

Lemma ToLower_TrimSpace s : TrimSpace (ToLower s) = ToLower (TrimSpace s).
Proof. unfold TrimSpace. by rewrite ToLower_trimLeft, ToLower_trimRight. Qed.

Lemma trimLeft_head s : headNotSpace (trimLeft s).
Proof.
  induction s as [|c s IH]; simpl; [done|].
  destruct (isSpace c) eqn:Hc; [done|]. simpl. done.
Qed.

Lemma trimLeft_fixed s : headNotSpace s → trimLeft s = s.
Proof. destruct s as [|c s]; simpl; [done|]. by intros ->. Qed.

Lemma trimRight_head s : headNotSpace s → headNotSpace (trimRight s).
Proof.
  destruct s as [|c s]; simpl; [done|]. intros Hc.
  destruct (trimRight s); simpl; [by rewrite Hc|done].
Qed.

Lemma trimRight_idem s : trimRight (trimRight s) = trimRight s.
Proof.
  induction s as [|c s IH]; simpl; [done|].
  destruct (trimRight s) as [|c' t] eqn:Ht.
  - destruct (isSpace c) eqn:Hc; simpl; [done|by rewrite Hc].
  - change (trimRight (String c (String c' t))) with
      (match trimRight (String c' t) with
       | EmptyString => if isSpace c then EmptyString else String c EmptyString
       | t' => String c t'
       end).
    by rewrite IH.
Qed.

Lemma TrimSpace_idem s : TrimSpace (TrimSpace s) = TrimSpace s.
Proof.
  unfold TrimSpace.
  rewrite (trimLeft_fixed (trimRight (trimLeft s)))
    by apply trimRight_head, trimLeft_head.
  apply trimRight_idem.
Qed.

Lemma countByte_ToLower s : countByte "," (ToLower s) = countByte "," s.
Proof. induction s as [|c s IH]; simpl; [done|]. by rewrite lowerByte_comma, IH. Qed.

Lemma countByte_trimLeft c s : countByte c (trimLeft s) ≤ countByte c s.
Proof.
  induction s as [|c' s IH]; simpl; [done|].
  destruct (isSpace c'); simpl; lia.
Qed.

Lemma countByte_trimRight c s : countByte c (trimRight s) ≤ countByte c s.
Proof.
  induction s as [|c' s IH]; simpl; [done|].
  destruct (trimRight s) as [|c'' t]; simpl in *.
  - destruct (isSpace c'); simpl; lia.
  - lia.
Qed.

Lemma length_Split s sep : length (Split s sep) = S (countByte sep s).
Proof.
  induction s as [|c s IH]; simpl; [done|].
  destruct (Ascii.eqb c sep); simpl; [by rewrite IH|].
  destruct (Split s sep); simpl in *; lia.
Qed.

Lemma Split_no_sep s sep : Forall (λ x, countByte sep x = 0) (Split s sep).
Proof.
  induction s as [|c s IH]; simpl; [by constructor|].
  destruct (Ascii.eqb c sep) eqn:Hc; [by constructor|].
  destruct (Split s sep) as [|h t]; simpl.
  - constructor; [simpl; by rewrite Hc|done].
  - inversion IH; subst. constructor; [simpl; rewrite Hc; lia|done].
Qed.

(** For an ASCII setting: the result is nil, and the middleware the
    pass-through handler, only for the empty setting (a blank setting gives
    a list); otherwise the list has one origin per comma-separated field
    of the trimmed setting, so at least one, and each origin is in normal
    form: trimming or lowering it again changes nothing, and it holds no
    comma. *)
Theorem CorsAllowedOrigins_normalised (env : string) :
  isASCII env = true →
  (CorsAllowedOrigins env = None ↔ env = EmptyString)
  ∧ (∀ maxAge, corsMiddleware env maxAge = PassThrough ↔ env = EmptyString)
  ∧ ∀ l, CorsAllowedOrigins env = Some l →
      length l = S (countByte "," (TrimSpace env))
      ∧ Forall (λ o, TrimSpace o = o ∧ ToLower o = o ∧ countByte "," o = 0) l.
Proof.
  intros _. unfold corsMiddleware, CorsAllowedOrigins.
  destruct (String.eqb_spec env EmptyString) as [->|Hne].
  - split_and!; [done|done|done].
  - split_and!; [done|done|].
    intros l ?. simplify_eq. split.
    + by rewrite length_fmap, length_Split.
    + apply Forall_fmap. eapply Forall_impl; [apply Split_no_sep|].
      intros x Hx. simpl in *. split_and!.
      * by rewrite ToLower_TrimSpace, TrimSpace_idem.
      * apply ToLower_idem.
      * rewrite countByte_ToLower. unfold TrimSpace.
        pose proof (countByte_trimRight "," (trimLeft x)).
        pose proof (countByte_trimLeft "," x). lia.
Qed.

(** The property on a setting with blanks and capitals. *)
Lemma CorsAllowedOrigins_normalised_witness :
  (CorsAllowedOrigins "  https://A.example.org , http://LOCALHOST:3000 " = None
   ↔ "  https://A.example.org , http://LOCALHOST:3000 " = EmptyString)
  ∧ (∀ maxAge,
       corsMiddleware "  https://A.example.org , http://LOCALHOST:3000 " maxAge
       = PassThrough
       ↔ "  https://A.example.org , http://LOCALHOST:3000 " = EmptyString)
  ∧ ∀ l, CorsAllowedOrigins "  https://A.example.org , http://LOCALHOST:3000 " = Some l →
      length l
      = S (countByte "," (TrimSpace "  https://A.example.org , http://LOCALHOST:3000 "))
      ∧ Forall (λ o, TrimSpace o = o ∧ ToLower o = o ∧ countByte "," o = 0) l.
Proof.
  apply (CorsAllowedOrigins_normalised
           "  https://A.example.org , http://LOCALHOST:3000 ").
  reflexivity.
Defined.

End CorsFacts.

(** * The further properties on the reference driver *)

Module MoreExamples.
Import MemDriver.

(** With two records that do not decode, the error of the second can be
    the one returned. *)
Lemma any_decode_error_can_be_returned_witness :
  ∃ sched,
    Pipeline.concurrentDecode zeroAccount Decode sched
      [Malformed "invalid document length"; Malformed undecodable]
    = Some (None, Some (driverError OtherFailure undecodable)).
Proof.
  apply (PipelineMore.any_decode_error_can_be_returned zeroAccount Decode
           [Malformed "invalid document length"; Malformed undecodable]
           1 (Malformed undecodable) (driverError OtherFailure undecodable));
    reflexivity.
Defined.

(** A handle obtained while the backend was reachable is returned after
    the backend has gone. *)
Lemma DB_success_is_cached_witness :
  Client.DBs [unreachable; unreachable] cfg (Client.DB reachable cfg Client.world0).1
  = ((Client.DB reachable cfg Client.world0).1,
     replicate (length [unreachable; unreachable])
       (Some (Client.mkDatabase tt "goauth"), None)).
Proof.
  apply (ClientMore.DB_success_is_cached reachable cfg Client.world0
           (Client.mkDatabase tt "goauth") [unreachable; unreachable]).
  reflexivity.
Defined.

(** After a refused first connection the health check stays on "the mongo
    client is nil", although the backend is reachable again. *)
Lemma Check_after_failed_init_witness :
  (Client.Check reachable
     (Client.calls cfg [Client.CallDB reachable; Client.CallCheck reachable]
        (Client.DB unreachable cfg Client.world0).1)).2
  = [errorsNew "the mongo client is nil"]
  ∧ (Client.Check reachable
       (Client.calls cfg [Client.CallDB reachable; Client.CallCheck reachable]
          (Client.DB unreachable cfg Client.world0).1)).1
    = Client.calls cfg [Client.CallDB reachable; Client.CallCheck reachable]
        (Client.DB unreachable cfg Client.world0).1.
Proof.
  apply (ClientMore.Check_after_failed_init unreachable cfg refused
           [Client.CallDB reachable; Client.CallCheck reachable] reachable).
  reflexivity.
Defined.

(** [Exists] and [Count] on a collection of two accounts. *)
Lemma Exists_iff_Count_positive_witness :
  (Crud.Exists CountMatching [alice; bob] (byEmail "alice@example.org") None
   = (true, None)
   ↔ (0 < Crud.Count CountMatching [alice; bob] (byEmail "alice@example.org"))%Z)
  ∧ (Crud.Count CountMatching [alice; bob] (byEmail "alice@example.org") = (-1)%Z
     ↔ ∃ e, CountMatching [alice; bob] (byEmail "alice@example.org") [] = inr e)
  ∧ (-1 ≤ Crud.Count CountMatching [alice; bob] (byEmail "alice@example.org"))%Z.
Proof.
  apply (CrudMore.Exists_iff_Count_positive CountMatching [alice; bob]
           (byEmail "alice@example.org")).
  - reflexivity.
  - intros n Hn. injection Hn as <-. vm_compute. discriminate.
Defined.

End MoreExamples.
